(** * Soft-backoff n-gram interpolation: [frontend_ui/src/lib/probability.ts]

    A shallow embedding of the interpolation engine of the chord
    probability explorer, and of the one call the page component makes
    to it, followed by the properties of the engine.

    The TypeScript code computes with [number]s.  The embedding is
    written once, over an interface [Number] of the arithmetic the code
    uses, and is run at two instances:
    - [Qc], exact rational arithmetic, on which the algebraic
      properties (sums equal to one, positivity) are proved;
    - [float], IEEE 754 binary64, which is what a JavaScript engine
      computes with, on which the worked scenarios are evaluated and
      the properties that fail with rounding or overflow are refuted.
    Properties that only depend on the control flow (which table is
    read, what is returned for an empty progression) are proved for
    every instance at once.

    Modelling choices:
    - a row of a table is a plain object: its own entries, with
      distinct keys, in the order in which [Object.keys] enumerates
      them, and behind them the members that every plain object
      inherits from [Object.prototype] ([constructor], [toString],
      ...); reading a key that is not an own key gives such a member
      when the key names one, and [undefined] otherwise;
    - a table is a plain object too: [model[context]] gives the own
      row, or the inherited member, or [undefined]; what reading a
      property of such a member gives depends on the engine and is a
      parameter, [member_get] (a read that throws, as [caller] on a
      function does in strict engines, is not represented);
    - the count tables of the metadata are plain objects whose own
      values are integers;
    - [finalProbs], the object the function builds and returns, is the
      list of its entries in the order of [Object.values]: array
      indices first, in ascending order, then the other keys in
      insertion order; [allNextChords], the [Set], is the list of its
      elements in insertion order;
    - every call of [getModelProbabilities] on one of the three tables
      is recorded in a trace, so that a run shows which tables it
      consulted. *)

From Stdlib Require Import QArith Qcanon Lqa Ascii.
From Stdlib Require Import Floats.PrimFloat Sorting.Sorted.
From stdpp Require Import base option list gmap strings numbers.

Local Open Scope Z_scope.

(** ** The arithmetic of [number] *)

Class Number (num : Type) := {
  (** the decimal literal [n/d], e.g. [0.5] is [lit 5 10] *)
  lit : Z → positive → num;
  nadd : num → num → num;
  nsub : num → num → num;
  nmul : num → num → num;
  ndiv : num → num → num;
  (** [x > 0] *)
  gt0 : num → bool;
  (** ToBoolean: false for [0] (and, on floats, [-0] and [NaN]) *)
  truthy : num → bool
}.

Declare Scope num_scope.
Delimit Scope num_scope with num.
Infix "+" := nadd : num_scope.
Infix "-" := nsub : num_scope.
Infix "*" := nmul : num_scope.
Infix "/" := ndiv : num_scope.

(** Exact rationals. *)
Definition Qc_gt0 (x : Qc) : bool := negb (Qle_bool x 0).

#[export] Instance Qc_Number : Number Qc := {
  lit n d := Q2Qc (n # d);
  nadd := Qcplus;
  nsub := Qcminus;
  nmul := Qcmult;
  ndiv := Qcdiv;
  gt0 := Qc_gt0;
  truthy x := negb (Qeq_bool x 0)
}.

(** IEEE 754 binary64.  A decimal literal with exactly representable
    numerator and denominator is their correctly rounded quotient. *)
Fixpoint float_of_pos (p : positive) : float :=
  match p with
  | xH => PrimFloat.one
  | xO p' => PrimFloat.mul PrimFloat.two (float_of_pos p')
  | xI p' =>
      PrimFloat.add (PrimFloat.mul PrimFloat.two (float_of_pos p')) PrimFloat.one
  end.

Definition float_of_Z (z : Z) : float :=
  match z with
  | Z0 => PrimFloat.zero
  | Zpos p => float_of_pos p
  | Zneg p => PrimFloat.opp (float_of_pos p)
  end.

#[export] Instance float_Number : Number float := {
  lit n d := PrimFloat.div (float_of_Z n) (float_of_Z (Zpos d));
  nadd := PrimFloat.add;
  nsub := PrimFloat.sub;
  nmul := PrimFloat.mul;
  ndiv := PrimFloat.div;
  gt0 x := PrimFloat.ltb PrimFloat.zero x;
  truthy x := PrimFloat.eqb x x && negb (PrimFloat.eqb x PrimFloat.zero)
}.

(** [|x - y| < 1e-9], the tolerance of the specification. *)
Definition float_close (x y : float) : bool :=
  PrimFloat.ltb (PrimFloat.abs (PrimFloat.sub x y))
                (PrimFloat.div (float_of_Z 1) (float_of_Z 1000000000)).

(** ** Objects *)

(** The entries of an object, in the order in which [Object.keys],
    [Object.values] and [for ... in] enumerate them. *)
Abbreviation Obj A := (list (string * A)).

Fixpoint obj_get {A} (k : string) (o : Obj A) : option A :=
  match o with
  | [] => None
  | (k', v') :: o' => if decide (k' = k) then Some v' else obj_get k o'
  end.

(** A plain object as the code receives it (a row of a table, parsed
    from JSON): own entries with distinct keys. *)
Record JSObject (A : Type) := {
  entries : Obj A;
  distinct_keys : bool_decide (NoDup entries.*1)
}.
Arguments entries {A} _.
Arguments distinct_keys {A} _.

(** [{}] *)
#[export] Instance JSObject_empty {A} : Empty (JSObject A) :=
  {| entries := []; distinct_keys := I |}.

(** The string-keyed members of [Object.prototype], which every plain
    object inherits; none of them is enumerable. *)
Definition Object_prototype : list string :=
  [ "constructor"; "hasOwnProperty"; "isPrototypeOf"; "propertyIsEnumerable";
    "toLocaleString"; "toString"; "valueOf"; "__proto__";
    "__defineGetter__"; "__defineSetter__"; "__lookupGetter__";
    "__lookupSetter__" ]%string.

Definition inherited (key : string) : bool :=
  bool_decide (key ∈ Object_prototype).

(** What reading a property gives: [undefined] (or [null]), a number,
    or a function or an object. *)
Inductive Value (A : Type) :=
  | VUndefined
  | VNumber (v : A)
  | VObject.
Arguments VUndefined {A}.
Arguments VNumber {A} _.
Arguments VObject {A}.

(** [o[key]] on a plain object: the own value, else the inherited
    member, else [undefined]. *)
Definition obj_read {A} (o : JSObject A) (key : string) : Value A :=
  match obj_get key (entries o) with
  | Some v => VNumber v
  | None => if inherited key then VObject else VUndefined
  end.

(** A key that is an array index: the canonical decimal of an integer
    below [2^32 - 1]. *)
Definition digit (c : ascii) : option N :=
  let n := N_of_ascii c in
  if (48 <=? n)%N && (n <=? 57)%N then Some (n - 48)%N else None.

Fixpoint digits_value (acc : N) (s : string) : option N :=
  match s with
  | EmptyString => Some acc
  | String c s' => d ← digit c; digits_value (10 * acc + d)%N s'
  end.

Definition array_index (key : string) : option N :=
  match key with
  | EmptyString => None
  | String c rest =>
      if Ascii.eqb c "0" && negb (String.eqb rest EmptyString) then None
      else n ← digits_value 0 key;
           if (n <? 4294967295)%N then Some n else None
  end.

(** The place of a new own key: array indices come first, in
    ascending order; any other key goes last. *)
Fixpoint obj_insert_index {A} (n : N) (k : string) (v : A) (o : Obj A)
    : Obj A :=
  match o with
  | [] => [(k, v)]
  | (k', v') :: o' =>
      match array_index k' with
      | Some n' =>
          if (n' <? n)%N then (k', v') :: obj_insert_index n k v o'
          else (k, v) :: o
      | None => (k, v) :: o
      end
  end.

Fixpoint obj_replace {A} (k : string) (v : A) (o : Obj A) : Obj A :=
  match o with
  | [] => []
  | (k', v') :: o' =>
      if decide (k' = k) then (k, v) :: o' else (k', v') :: obj_replace k v o'
  end.

(** [o[k] = v], for a number [v], on an object made by [{}] and filled
    by such assignments.  The key [__proto__] reaches the setter that
    the object inherits, which ignores a number: no entry is made. *)
Definition obj_set {A} (k : string) (v : A) (o : Obj A) : Obj A :=
  if String.eqb k "__proto__" then o
  else
    match obj_get k o with
    | Some _ => obj_replace k v o
    | None =>
        match array_index k with
        | Some n => obj_insert_index n k v o
        | None => o ++ [(k, v)]
        end
    end.

(** [Set<string>], in insertion order. *)
Definition set_add (s : list string) (x : string) : list string :=
  if decide (x ∈ s) then s else (s ++ [x])%list.

(** ** Data model: [types/index.ts] and the interfaces of [probability.ts] *)

(** [NGramModel]: context key to row, the own entries of the table. *)
Abbreviation NGramModel num := (gmap string (JSObject num)).

Record Models (num : Type) := {
  unigram : NGramModel num;
  bigram : NGramModel num;
  trigram : NGramModel num
}.
Arguments unigram {num} _.
Arguments bigram {num} _.
Arguments trigram {num} _.

Record InterpolationWeights (num : Type) := {
  lambda3 : num;
  lambda2 : num;
  lambda1 : num
}.
Arguments lambda3 {num} _.
Arguments lambda2 {num} _.
Arguments lambda1 {num} _.

(** What [table?.[context] || 0] gives on a count table: a number, or
    a member of [Object.prototype] when the context names one and the
    table has no such key. *)
Inductive Count :=
  | Counted (n : Z)
  | NotCounted.

Coercion Counted : Z >-> Count.

(** [ContextCounts]: every field is optional. *)
Record ContextCounts := {
  c_unigram : option Count;
  c_bigram : option Count;
  c_trigram : option Count
}.

(** The [metadata] argument has type [any]; the code reads three
    optional count tables from it, context key to raw count (an
    integer). *)
Record Metadata := {
  unigram_counts : option (gmap string Z);
  bigram_counts : option (gmap string Z);
  trigram_counts : option (gmap string Z)
}.

(** What [getModelProbabilities] returns: a row of the table or [{}],
    or the member of [Object.prototype] that the context names. *)
Inductive Row (num : Type) :=
  | Plain (o : JSObject num)
  | Member (name : string).
Arguments Plain {num} _.
Arguments Member {num} _.

(** [Object.keys(row)]: a member of [Object.prototype] has no
    enumerable property of its own. *)
Definition Object_keys {num} (row : Row num) : list string :=
  match row with
  | Plain o => (entries o).*1
  | Member _ => []
  end.

(** The engine: what reading the property [key] of the member [name]
    of [Object.prototype] gives. *)
Class Realm (num : Type) := member_get : string → string → Value num.

(** [row[chord]] *)
Definition row_get {num} {R : Realm num} (row : Row num) (chord : string)
    : Value num :=
  match row with
  | Plain o => obj_read o chord
  | Member name => member_get name chord
  end.

(** [x || 0] as an operand of the blend: a number, or [None] for a
    function or an object, which makes the product [NaN]. *)
Definition or_zero {num} {N : Number num} (x : Value num) : option num :=
  match x with
  | VNumber v => Some (if truthy v then v else lit 0 1)
  | VUndefined => Some (lit 0 1)
  | VObject => None
  end.

(** ** Reads of the three tables

    [computeProbabilities] reads [models.trigram], [models.bigram] and
    [models.unigram] through [getModelProbabilities].  Each such call
    is recorded, with the table it was made on and the context key, so
    that "the table is consulted" is a statement about a run. *)

Inductive Order := Uni | Bi | Tri.

#[export] Instance Order_eq_dec : EqDecision Order.
Proof. solve_decision. Defined.

Definition Traced (A : Type) : Type := A * list (Order * string).

#[export] Instance Traced_ret : MRet Traced := λ A a, (a, []).

#[export] Instance Traced_bind : MBind Traced := λ A B k m,
  let '(a, t1) := m in let '(b, t2) := k a in (b, (t1 ++ t2)%list).

Definition tell (o : Order) (context : string) : Traced unit :=
  (tt, [(o, context)]).

(** [o] was consulted during the run that produced the trace [t]. *)
Definition consulted (o : Order) (t : list (Order * string)) : Prop :=
  o ∈ t.*1.

(** ** [probability.ts] *)

Definition BACKOFF_THRESHOLD : Z := 3.

(** [c === undefined || c < BACKOFF_THRESHOLD]; a count that is not a
    number compares as [NaN]. *)
Definition weak (c : option Count) : bool :=
  match c with
  | None => true
  | Some (Counted n) => n <? BACKOFF_THRESHOLD
  | Some NotCounted => false
  end.

(** [c !== undefined && c >= BACKOFF_THRESHOLD] *)
Definition strong (c : option Count) : bool :=
  match c with
  | Some (Counted n) => BACKOFF_THRESHOLD <=? n
  | _ => false
  end.

(** [progression.slice(-n)] *)
Definition slice_last (n : nat) (progression : list string) : list string :=
  drop (length progression - n) progression.

(** [progression.slice(-n).join(',')] *)
Definition context_key (n : nat) (progression : list string) : string :=
  String.concat ","%string (slice_last n progression).

(** [progression[progression.length - 1]], read where the length is
    at least one. *)
Definition last_chord (progression : list string) : string :=
  default EmptyString (progression !! (length progression - 1)%nat).

(** [table?.[context] || 0] *)
Definition read_count (table : option (gmap string Z)) (context : string)
    : Count :=
  match table with
  | None => Counted 0
  | Some t =>
      match t !! context with
      | Some n => Counted n
      | None => if inherited context then NotCounted else Counted 0
      end
  end.

Definition getContextCounts (progression : list string)
    (metadata : option Metadata) : ContextCounts :=
  match metadata with
  | Some md =>
      {| c_unigram :=
           if (1 <=? length progression)%nat
           then Some (read_count (unigram_counts md) (last_chord progression))
           else None;
         c_bigram :=
           if (2 <=? length progression)%nat
           then Some (read_count (bigram_counts md) (context_key 2 progression))
           else None;
         c_trigram :=
           if (3 <=? length progression)%nat
           then Some (read_count (trigram_counts md) (context_key 3 progression))
           else None |}
  | None => {| c_unigram := None; c_bigram := None; c_trigram := None |}
  end.

Section Engine.
Context {num : Type} {N : Number num} {R : Realm num}.
Local Open Scope num_scope.

Definition DEFAULT_WEIGHTS : InterpolationWeights num :=
  {| lambda3 := lit 60 100; lambda2 := lit 30 100; lambda1 := lit 10 100 |}.

(** The body of the first conditional of [adjustWeights]. *)
Definition reduceTrigram (w : InterpolationWeights num)
    : InterpolationWeights num :=
  let reduction := lambda3 w * lit 5 10 in
  {| lambda3 := lambda3 w - reduction;
     lambda2 := lambda2 w + reduction * lit 6 10;
     lambda1 := lambda1 w + reduction * lit 4 10 |}.

(** The body of the second conditional of [adjustWeights]. *)
Definition reduceBigram (w : InterpolationWeights num)
    : InterpolationWeights num :=
  let reduction := lambda2 w * lit 5 10 in
  {| lambda3 := lambda3 w;
     lambda2 := lambda2 w - reduction;
     lambda1 := lambda1 w + reduction |}.

(** The closing block of [adjustWeights]: division by the total,
    guarded by [total > 0]. *)
Definition normalizeWeights (w : InterpolationWeights num)
    : InterpolationWeights num :=
  let total := lambda1 w + lambda2 w + lambda3 w in
  if gt0 total
  then {| lambda3 := lambda3 w / total;
          lambda2 := lambda2 w / total;
          lambda1 := lambda1 w / total |}
  else w.

(** The two conditionals of [adjustWeights], in their order: the
    weights as they stand before the division. *)
Definition backedOff (weights : InterpolationWeights num)
    (contextCounts : ContextCounts) : InterpolationWeights num :=
  let w := weights in
  let w := if weak (c_trigram contextCounts) then reduceTrigram w else w in
  let w := if weak (c_bigram contextCounts) then reduceBigram w else w in
  w.

Definition adjustWeights (weights : InterpolationWeights num)
    (contextCounts : ContextCounts) : InterpolationWeights num :=
  normalizeWeights (backedOff weights contextCounts).

(** [model[context] || {}]: a row is an object, hence truthy, and so
    is an inherited member. *)
Definition getModelProbabilities (model : NGramModel num)
    (context : string) : Row num :=
  match model !! context with
  | Some row => Plain row
  | None => if inherited context then Member context else Plain ∅
  end.

Definition table (o : Order) (models : Models num) : NGramModel num :=
  match o with
  | Uni => unigram models
  | Bi => bigram models
  | Tri => trigram models
  end.

(** [getModelProbabilities(models.<o>, context)], recorded. *)
Definition readTable (o : Order) (models : Models num) (context : string)
    : Traced (Row num) :=
  tell o context ;;
  mret (getModelProbabilities (table o models) context).

(** [Object.keys(row).forEach(chord => allNextChords.add(chord))] *)
Definition add_keys (allNextChords : list string) (row : Row num)
    : list string :=
  foldl set_add allNextChords (Object_keys row).

(** What the three conditionals of [computeProbabilities] leave in
    [trigramProbs], [bigramProbs], [unigramProbs], [allNextChords]. *)
Record Rows := {
  trigramProbs : Row num;
  bigramProbs : Row num;
  unigramProbs : Row num;
  allNextChords : list string
}.

Definition collectRows (progression : list string) (models : Models num)
    (contextCounts : ContextCounts) : Traced Rows :=
  let allNextChords : list string := [] in
  '(trigramProbs, allNextChords) ←
    (if (3 <=? length progression)%nat && strong (c_trigram contextCounts)
     then
       let context := context_key 3 progression in
       row ← readTable Tri models context;
       mret (row, add_keys allNextChords row)
     else mret (Plain ∅, allNextChords));
  '(bigramProbs, allNextChords) ←
    (if (2 <=? length progression)%nat && strong (c_bigram contextCounts)
     then
       let context := context_key 2 progression in
       row ← readTable Bi models context;
       mret (row, add_keys allNextChords row)
     else mret (Plain ∅, allNextChords));
  '(unigramProbs, allNextChords) ←
    (if (1 <=? length progression)%nat
     then
       let context := last_chord progression in
       row ← readTable Uni models context;
       mret (row, add_keys allNextChords row)
     else mret (Plain ∅, allNextChords));
  mret {| trigramProbs := trigramProbs; bigramProbs := bigramProbs;
         unigramProbs := unigramProbs; allNextChords := allNextChords |}.

(** The blended score of one candidate, before the final division;
    [None] when an operand is not a number, where the code computes
    [NaN]. *)
Definition interpolated (adjustedWeights : InterpolationWeights num)
    (rows : Rows) (chord : string) : option num :=
  p3 ← or_zero (row_get (trigramProbs rows) chord);
  p2 ← or_zero (row_get (bigramProbs rows) chord);
  p1 ← or_zero (row_get (unigramProbs rows) chord);
  Some (lambda3 adjustedWeights * p3 +
        lambda2 adjustedWeights * p2 +
        lambda1 adjustedWeights * p1).

(** [interpolated > 0] *)
Definition positive (score : option num) : bool :=
  match score with
  | Some s => gt0 s
  | None => false
  end.

(** The body of the loop over the candidates. *)
Definition blend_step (adjustedWeights : InterpolationWeights num)
    (rows : Rows) (finalProbs : Obj num) (chord : string) : Obj num :=
  match interpolated adjustedWeights rows chord with
  | Some score =>
      if gt0 score then obj_set chord score finalProbs else finalProbs
  | None => finalProbs
  end.

(** The loop over the candidates, for a given iteration order. *)
Definition blend (adjustedWeights : InterpolationWeights num) (rows : Rows)
    (candidates : list string) : Obj num :=
  foldl (blend_step adjustedWeights rows) [] candidates.

(** The entry the loop writes for a candidate, if any. *)
Definition scored (adjustedWeights : InterpolationWeights num) (rows : Rows)
    (chord : string) : option (string * num) :=
  match interpolated adjustedWeights rows chord with
  | Some score =>
      if gt0 score && negb (String.eqb chord "__proto__")
      then Some (chord, score) else None
  | None => None
  end.

(** [Object.values(finalProbs).reduce((sum, p) => sum + p, 0)] *)
Definition total_of (finalProbs : Obj num) : num :=
  foldl (λ sum p, sum + p) (lit 0 1) finalProbs.*2.

(** The closing block of [computeProbabilities]. *)
Definition normalizeProbs (finalProbs : Obj num) : Obj num :=
  let total := total_of finalProbs in
  if gt0 total
  then (λ e, (e.1, e.2 / total)) <$> finalProbs
  else finalProbs.

Definition computeProbabilitiesT (progression : list string)
    (models : Models num) (weights : InterpolationWeights num)
    (metadata : option Metadata) : Traced (Obj num) :=
  if (length progression =? 0)%nat then mret []
  else
    let contextCounts := getContextCounts progression metadata in
    let adjustedWeights := adjustWeights weights contextCounts in
    rows ← collectRows progression models contextCounts;
    if (length (allNextChords rows) =? 0)%nat then mret []
    else
      let finalProbs := blend adjustedWeights rows (allNextChords rows) in
      mret (normalizeProbs finalProbs).

(** The value returned. *)
Definition computeProbabilities (progression : list string)
    (models : Models num) (weights : InterpolationWeights num)
    (metadata : option Metadata) : Obj num :=
  (computeProbabilitiesT progression models weights metadata).1.

(** The table reads made on the way. *)
Definition tableReads (progression : list string)
    (models : Models num) (weights : InterpolationWeights num)
    (metadata : option Metadata) : list (Order * string) :=
  (computeProbabilitiesT progression models weights metadata).2.

(** The effect of [Home] (the page component) that recomputes
    [nextChordProbs] when [progression] or [models] change: the call
    passes no metadata. *)
Definition Home_effect (models : option (Models num))
    (progression : list string) : Traced (Obj num) :=
  match models with
  | Some m =>
      if (0 <? length progression)%nat
      then computeProbabilitiesT progression m DEFAULT_WEIGHTS None
      else mret []
  | None => mret []
  end.

(** The value the page stores in [nextChordProbs]. *)
Definition Home_nextChordProbs (models : option (Models num))
    (progression : list string) : Obj num :=
  (Home_effect models progression).1.

End Engine.

(** ** Quantities the properties are stated with *)

(** [lambda1 + lambda2 + lambda3], as [adjustWeights] sums them. *)
Definition weight_sum {num} {N : Number num} (w : InterpolationWeights num)
    : num :=
  (lambda1 w + lambda2 w + lambda3 w)%num.

(** The counts when no metadata is passed. *)
Definition no_counts : ContextCounts :=
  {| c_unigram := None; c_bigram := None; c_trigram := None |}.

(** The count that a table of the metadata holds for a context: 0
    when the table or the entry is missing. *)
Definition count_of (table : option (gmap string Z)) (context : string) : Z :=
  default 0 (table ≫= λ t, t !! context).

(** No key of the row names a member of [Object.prototype]. *)
Definition plain_keys {num} (row : JSObject num) : Prop :=
  Forall (λ key, inherited key = false) (entries row).*1.



Definition list_mass (l : Obj Qc) : Qc :=
  foldr (λ kv acc, (kv.2 + acc)%Qc) 0%Qc l.







(** ** The worked scenarios of the specification *)

Section Scenarios.
Context {num : Type} {N : Number num}.

Definition trigram_rowA : JSObject num :=
  {| entries := [ ("F", lit 40 100); ("C", lit 25 100);
                  ("Dmin", lit 15 100); ("Emin", lit 10 100) ]%string;
     distinct_keys := I |}.

Definition bigram_rowA : JSObject num :=
  {| entries := [ ("F", lit 35 100); ("G", lit 65 100) ]%string;
     distinct_keys := I |}.

Definition unigram_rowA : JSObject num :=
  {| entries := [ ("F", lit 22 100); ("C", lit 18 100);
                  ("G", lit 60 100) ]%string;
     distinct_keys := I |}.

(** Scenario A of the specification: what it fixes of the tables and
    of the metadata, for the progression C, G, Amin. *)
Definition scenarioA (models : Models num) (md : Metadata) : Prop :=
  trigram models !! "C,G,Amin"%string = Some trigram_rowA ∧
  count_of (trigram_counts md) "C,G,Amin" = 5 ∧
  (∃ row, bigram models !! "G,Amin"%string = Some row ∧
          obj_get "F"%string (entries row) = Some (lit 35 100)) ∧
  count_of (bigram_counts md) "G,Amin" = 5 ∧
  (∃ row, unigram models !! "Amin"%string = Some row ∧
          obj_get "F"%string (entries row) = Some (lit 22 100)).

(** Tables that complete scenario A. *)
Definition modelsA : Models num :=
  {| trigram := {[ "C,G,Amin"%string := trigram_rowA ]};
     bigram := {[ "G,Amin"%string := bigram_rowA ]};
     unigram := {[ "Amin"%string := unigram_rowA ]} |}.

End Scenarios.

(** Metadata that completes scenario A; [n3] is the count of the
    trigram context. *)
Definition metadataA (n3 : Z) : Metadata :=
  {| unigram_counts := Some {[ "Amin"%string := 9 ]};
     bigram_counts := Some {[ "G,Amin"%string := 5 ]};
     trigram_counts := Some {[ "C,G,Amin"%string := n3 ]} |}.

Definition progressionA : list string :=
  ["C"%string; "G"%string; "Amin"%string].

(** An engine whose built-in members have no properties, for the runs
    that read none of them. *)
Definition bare_members {num} : Realm num := λ _ _, VUndefined.

(** * Further quantities *)

(** The triple [weights] with every component multiplied by [c]. *)
Definition scaleWeights (c : Qc) (w : InterpolationWeights Qc)
    : InterpolationWeights Qc :=
  {| lambda3 := (c * lambda3 w)%Qc;
     lambda2 := (c * lambda2 w)%Qc;
     lambda1 := (c * lambda1 w)%Qc |}.

(** Context counts with the given trigram and bigram entries. *)
Definition counts_with (u b t : option Count) : ContextCounts :=
  {| c_unigram := u; c_bigram := b; c_trigram := t |}.

(** The metadata [md] with its unigram count table replaced. *)
Definition with_unigram_counts (u : option (gmap string Z)) (md : Metadata)
    : Metadata :=
  {| unigram_counts := u;
     bigram_counts := bigram_counts md;
     trigram_counts := trigram_counts md |}.

(** A metadata object that holds none of the three count tables. *)
Definition bare_metadata : Metadata :=
  {| unigram_counts := None; bigram_counts := None; trigram_counts := None |}.

(** The probability that a row gives a chord, 0 when it has no entry
    for it. *)
Definition prob_of (row : JSObject Qc) (chord : string) : Qc :=
  default 0%Qc (obj_get chord (entries row)).

(** The sum of [f] over the elements of a list. *)
Definition sum_over (f : string → Qc) (l : list string) : Qc :=
  foldr (λ c acc, (f c + acc)%Qc) 0%Qc l.

(** The sum of the values of a row. *)
Definition row_mass (row : JSObject Qc) : Qc := list_mass (entries row).

(** The interpolation formula on the rows [o3], [o2], [o1] of the
    trigram, bigram and unigram tables. *)
Definition score_of (a : InterpolationWeights Qc) (o3 o2 o1 : JSObject Qc)
    (chord : string) : Qc :=
  (lambda3 a * prob_of o3 chord + lambda2 a * prob_of o2 chord +
   lambda1 a * prob_of o1 chord)%Qc.

(** Tables whose entries are not negative. *)
Definition nonneg_row (row : JSObject Qc) : Prop :=
  Forall (λ kv, (0 ≤ kv.2)%Qc) (entries row).

Definition nonneg_model (model : NGramModel Qc) : Prop :=
  map_Forall (λ _ row, nonneg_row row) model.

Definition nonneg_models (models : Models Qc) : Prop :=
  nonneg_model (trigram models) ∧ nonneg_model (bigram models) ∧
  nonneg_model (unigram models).

Definition trigram_rowD : JSObject Qc :=
  {| entries := [ ("F", lit 50 100); ("C", lit 50 100) ]%string;
     distinct_keys := I |}.

(** Three small finalized tables for the progression C, G, Amin: every
    row sums to one. *)
Definition modelsD : Models Qc :=
  {| trigram := {[ "C,G,Amin"%string := trigram_rowD ]};
     bigram := {[ "G,Amin"%string := bigram_rowA ]};
     unigram := {[ "Amin"%string := unigram_rowA ]} |}.

(** The text holds a comma. *)
Fixpoint has_comma (s : string) : bool :=
  match s with
  | EmptyString => false
  | String c s' => Ascii.eqb c "," || has_comma s'
  end.

(** * The page handlers: [Home] *)

(** [handleChordClick]: [setProgression([...progression, chord])]. *)
Definition handleChordClick (progression : list string) (chord : string)
    : list string :=
  progression ++ [chord].

(** [l.filter((_, i) => keep(i))], the indices counted from [i]. *)
Fixpoint filter_index {A} (keep : nat → bool) (i : nat) (l : list A)
    : list A :=
  match l with
  | [] => []
  | x :: l' =>
      if keep i then x :: filter_index keep (S i) l'
      else filter_index keep (S i) l'
  end.

(** [handleRemoveChord]:
    [setProgression(progression.filter((_, i) => i !== index))]. *)
Definition handleRemoveChord (progression : list string) (index : nat)
    : list string :=
  filter_index (λ i, negb (i =? index)%nat) 0 progression.

(** [handleClear]: [setProgression([])]. *)
Definition handleClear : list string := [].

(** [SavedProgression] of [types/index.ts]. *)
Record SavedProgression := {
  sp_id : string;
  sp_chords : list string;
  sp_timestamp : Z
}.

(** [handleSaveProgression]; [newId] stands for the value of
    [generateId()] and [now] for that of [Date.now()]. *)
Definition handleSaveProgression (newId : string) (now : Z)
    (progression : list string) (savedProgressions : list SavedProgression)
    : list SavedProgression :=
  if (length progression =? 0)%nat then savedProgressions
  else {| sp_id := newId; sp_chords := progression; sp_timestamp := now |}
       :: savedProgressions.

#[export] Instance SavedProgression_id_dec (id : string) (p : SavedProgression)
  : Decision (sp_id p ≠ id).
Proof. apply _. Defined.

(** [handleRemoveSavedProgression]:
    [savedProgressions.filter((p) => p.id !== id)]. *)
Definition handleRemoveSavedProgression (id : string)
    (savedProgressions : list SavedProgression) : list SavedProgression :=
  filter (λ p, sp_id p ≠ id) savedProgressions.

(** * Chord names: [lib/chordFormat.ts] and [lib/midi.ts]

    A chord name is a text in UTF-8, one [ascii] for each byte.  The
    code tests and rewrites characters of ASCII only, and a byte of a
    character outside ASCII never equals one of them; [trim] removes
    the white space and the line terminators of ECMAScript, in their
    UTF-8 form.  [toLowerCase] is modelled on the letters of ASCII: a
    letter outside ASCII is kept as it is, and the quality is only
    compared with words of ASCII, which no lower-cased letter from
    outside ASCII completes. *)

Definition in_range (lo hi c : ascii) : bool :=
  (N_of_ascii lo <=? N_of_ascii c)%N && (N_of_ascii c <=? N_of_ascii hi)%N.

(** [chord.replace(/^([A-G])s(?!us)/, '$1#')], and the empty string
    returned as it is. *)
Definition formatChordDisplay (chord : string) : string :=
  match chord with
  | String c (String s rest) =>
      if in_range "A" "G" c && Ascii.eqb s "s" &&
         negb (String.prefix "us" rest)
      then String c (String "#" rest)
      else chord
  | _ => chord
  end.

(** The white space and line terminators of one byte: tab, line
    feed, vertical tab, form feed, carriage return, space. *)
Definition is_space (c : ascii) : bool :=
  match N_of_ascii c with
  | 9 | 10 | 11 | 12 | 13 | 32 => true
  | _ => false
  end%N.

(** U+00A0, the no-break space: [C2 A0]. *)
Definition space2 (c1 c2 : ascii) : bool :=
  match N_of_ascii c1, N_of_ascii c2 with
  | 194, 160 => true
  | _, _ => false
  end%N.

(** The white space and line terminators of three bytes: U+1680
    [E1 9A 80]; U+2000 to U+200A [E2 80 80] to [E2 80 8A]; U+2028,
    U+2029 [E2 80 A8], [E2 80 A9]; U+202F [E2 80 AF]; U+205F
    [E2 81 9F]; U+3000 [E3 80 80]; U+FEFF [EF BB BF]. *)
Definition space3 (c1 c2 c3 : ascii) : bool :=
  match N_of_ascii c1, N_of_ascii c2, N_of_ascii c3 with
  | 225, 154, 128 => true
  | 226, 128, n => (128 <=? n)%N && (n <=? 138)%N || (n =? 168)%N ||
                   (n =? 169)%N || (n =? 175)%N
  | 226, 129, 159 => true
  | 227, 128, 128 => true
  | 239, 187, 191 => true
  | _, _, _ => false
  end%N.

(** The text is one white-space character. *)
Definition is_space_char (s : string) : bool :=
  match s with
  | String c1 EmptyString => is_space c1
  | String c1 (String c2 EmptyString) => space2 c1 c2
  | String c1 (String c2 (String c3 EmptyString)) => space3 c1 c2 c3
  | _ => false
  end.

(** [s.trimStart()] *)
Fixpoint trimStart (s : string) : string :=
  match s with
  | EmptyString => s
  | String c1 s1 =>
      if is_space c1 then trimStart s1
      else
        match s1 with
        | EmptyString => s
        | String c2 s2 =>
            if space2 c1 c2 then trimStart s2
            else
              match s2 with
              | EmptyString => s
              | String c3 s3 => if space3 c1 c2 c3 then trimStart s3 else s
              end
        end
  end.

(** [s.trimEnd()] *)
Fixpoint trimEnd (s : string) : string :=
  match s with
  | EmptyString => EmptyString
  | String c s' =>
      let t := String c (trimEnd s') in
      if is_space_char t then EmptyString else t
  end.

Fixpoint drop_leading (p : ascii → bool) (s : string) : string :=
  match s with
  | EmptyString => EmptyString
  | String c s' => if p c then drop_leading p s' else s
  end.

Fixpoint drop_trailing (p : ascii → bool) (s : string) : string :=
  match s with
  | EmptyString => EmptyString
  | String c s' =>
      match drop_trailing p s' with
      | EmptyString => if p c then EmptyString else String c EmptyString
      | t => String c t
      end
  end.

(** [s.trim()] *)
Definition trim (s : string) : string := trimEnd (trimStart s).

Definition to_upper (c : ascii) : ascii :=
  if in_range "a" "z" c then ascii_of_N (N_of_ascii c - 32) else c.

Definition to_lower (c : ascii) : ascii :=
  if in_range "A" "Z" c then ascii_of_N (N_of_ascii c + 32) else c.

(** [s.toLowerCase()] *)
Fixpoint toLowerCase (s : string) : string :=
  match s with
  | EmptyString => EmptyString
  | String c s' => String (to_lower c) (toLowerCase s')
  end.

Definition BASE_MIDI : Z := 60.

Definition ROOT_TO_SEMITONE : gmap string Z :=
  list_to_map
    [ ("C", 0); ("C#", 1); ("Db", 1); ("D", 2); ("D#", 3); ("Eb", 3);
      ("E", 4); ("F", 5); ("F#", 6); ("Gb", 6); ("G", 7); ("G#", 8);
      ("Ab", 8); ("A", 9); ("A#", 10); ("Bb", 10); ("B", 11) ]%string.

(** [splitChord]: the root and the quality of a chord name, or
    [null]. *)
Definition splitChord (chord : string) : option (string * string) :=
  let trimmed := trim chord in
  match trimmed with
  | EmptyString => None
  | String c rest =>
      let letter := to_upper c in
      if negb (in_range "A" "G" letter) then None
      else
        let '(accidental, rest) :=
          match rest with
          | String a rest' =>
              if Ascii.eqb a "#" || Ascii.eqb a "b"
              then (String a EmptyString, rest')
              else if Ascii.eqb a "s" && negb (String.prefix "sus" rest)
              then ("#"%string, rest')
              else (EmptyString, rest)
          | EmptyString => (EmptyString, rest)
          end in
        Some (String letter accidental, toLowerCase rest)
  end.

(** [quality.includes(sub)] *)
Definition includes (sub quality : string) : bool :=
  match String.index 0 sub quality with
  | Some _ => true
  | None => false
  end.

Definition chordIntervals (quality : string) : list Z :=
  if String.eqb quality EmptyString || String.eqb quality "maj" ||
     String.eqb quality "major"
  then [0; 4; 7]
  else if String.eqb quality "min" || String.eqb quality "m" ||
          String.eqb quality "minor"
  then [0; 3; 7]
  else if String.eqb quality "7" then [0; 4; 7; 10]
  else if String.eqb quality "maj7" || String.eqb quality "M7"
  then [0; 4; 7; 11]
  else if String.eqb quality "min7" || String.eqb quality "m7"
  then [0; 3; 7; 10]
  else if String.eqb quality "dim" || String.eqb quality "diminished"
  then [0; 3; 6]
  else if String.eqb quality "aug" || String.eqb quality "augmented"
  then [0; 4; 8]
  else if String.eqb quality "sus2" then [0; 2; 7]
  else if String.eqb quality "sus4" || String.eqb quality "sus"
  then [0; 5; 7]
  else if includes "min" quality then [0; 3; 7]
  else [0; 4; 7].

Definition chordToMidiNotes (chord : string) : list Z :=
  match splitChord chord with
  | None => []
  | Some (root, quality) =>
      match ROOT_TO_SEMITONE !! root with
      | None => []
      | Some semitone =>
          (λ interval, BASE_MIDI + semitone + interval) <$>
            chordIntervals quality
      end
  end.

(** [s.replace(/[bad]+/g, '_')]: every maximal run of characters of
    the class becomes one underscore; [in_run] tells that the
    character before belongs to a run. *)
Fixpoint replace_runs (bad : ascii → bool) (in_run : bool) (s : string)
    : string :=
  match s with
  | EmptyString => EmptyString
  | String c s' =>
      if bad c
      then if in_run then replace_runs bad true s'
           else String "_" (replace_runs bad true s')
      else String c (replace_runs bad false s')
  end.

(** The class [[A-Za-z0-9#-]]. *)
Definition safe_char (c : ascii) : bool :=
  in_range "A" "Z" c || in_range "a" "z" c || in_range "0" "9" c ||
  Ascii.eqb c "#" || Ascii.eqb c "-".

Definition is_underscore (c : ascii) : bool := Ascii.eqb c "_".

(** The chain of [makeMidiFilename] up to [safe]. *)
Definition safe_name (chords : list string) : string :=
  let parts :=
    (λ chord, replace_runs (λ c, negb (safe_char c)) false chord) <$>
      (formatChordDisplay <$> chords) in
  let joined := String.concat "_" parts in
  let collapsed := replace_runs is_underscore false joined in
  drop_trailing is_underscore (drop_leading is_underscore collapsed).

Definition makeMidiFilename (chords : list string) : string :=
  if (length chords =? 0)%nat then "progression.mid"%string
  else
    let safe := safe_name chords in
    String.append (if String.eqb safe EmptyString then "progression"%string else safe)
                  ".mid".

(** [sanitizeCsvCell] of [components/SavedProgressions.tsx], on a
    string: [/^[=+\-@]/.test(text)]. *)
Definition formula_char (c : ascii) : bool :=
  Ascii.eqb c "=" || Ascii.eqb c "+" || Ascii.eqb c "-" || Ascii.eqb c "@".

Definition sanitizeCsvCell (text : string) : string :=
  match text with
  | String c _ => if formula_char c then String "'" text else text
  | EmptyString => text
  end.

(** * The predictions on screen: [components/ProbabilityBubbles.tsx] *)

Section Bubbles.
Context {num : Type} {N : Number num}.
Local Open Scope num_scope.

(** [entries.sort(([, a], [, b]) => b - a)].  The sort of an array is
    stable; with a comparator that is an order the result is the one
    that inserting the entries one by one gives: an entry goes after
    the entries [x] that compare [x.2 - e.2 > 0] with it. *)
Fixpoint insert_desc (e : string * num) (l : Obj num) : Obj num :=
  match l with
  | [] => [e]
  | x :: l' =>
      if gt0 (x.2 - e.2) then x :: insert_desc e l' else e :: x :: l'
  end.

Definition sort_desc (entries : Obj num) : Obj num :=
  foldr insert_desc [] entries.

(** [Object.entries(probabilities).sort(...).slice(0, maxDisplay)] *)
Definition sortedChords (probabilities : Obj num) (maxDisplay : nat)
    : Obj num :=
  take maxDisplay (sort_desc probabilities).

(** [sortedChords[0]?.[1] || 1] *)
Definition maxProb (sorted : Obj num) : num :=
  match sorted with
  | e :: _ => if truthy e.2 then e.2 else lit 1 1
  | [] => lit 1 1
  end.

(** [40 + (prob / maxProb) * 70], the diameter of a bubble. *)
Definition bubbleSize (sorted : Obj num) (prob : num) : num :=
  lit 40 1 + (prob / maxProb sorted) * lit 70 1.

End Bubbles.

(** * Loading the tables: [lib/dataLoader.ts] *)

(** What one [fetch] of a file followed by [response.json()] comes to:
    the parsed body, a response that is not [ok], or a rejection (of
    the request or of the parsing). *)
Inductive FetchOutcome (J : Type) :=
  | Fetched (json : J)
  | NotOk (status : Z)
  | Rejected.
Arguments Fetched {J} _.
Arguments NotOk {J} _.
Arguments Rejected {J}.

Record LoadProgress := {
  loaded : nat;
  total : nat;
  currentFile : string
}.

(** A run of [loadModels]: what it returns or throws, the cache it
    leaves, the progress it reported and the files it requested. *)
Record LoadRun (num : Type) := {
  outcome : Models num + string;
  cachedModels : option (Models num);
  progress : list LoadProgress;
  requests : list string
}.
Arguments outcome {num} _.
Arguments cachedModels {num} _.
Arguments progress {num} _.
Arguments requests {num} _.

Definition basePath : string := "/chord-probabilities".

Definition data_url (name : string) : string :=
  String.append basePath (String.append "/data/" name).

Definition load_error : string := "Failed to load probability models".

Section Loader.
Context {num : Type}.

Definition failed_run (cache : option (Models num))
    (progress : list LoadProgress) (requests : list string) : LoadRun num :=
  {| outcome := inr load_error; cachedModels := cache;
     progress := progress; requests := requests |}.

(** [loadModels], the three iterations of its loop written out;
    [fetch] answers a request for a URL and [cache] is the module
    variable [cachedModels] at the call. *)
Definition loadModels (fetch : string → FetchOutcome (NGramModel num))
    (cache : option (Models num)) : LoadRun num :=
  match cache with
  | Some models =>
      {| outcome := inl models; cachedModels := cache;
         progress := []; requests := [] |}
  | None =>
      let p0 := {| loaded := 0; total := 3; currentFile := "unigram.json" |} in
      let p1 := {| loaded := 1; total := 3; currentFile := "bigram.json" |} in
      let p2 := {| loaded := 2; total := 3; currentFile := "trigram.json" |} in
      let p3 := {| loaded := 3; total := 3; currentFile := "Complete" |} in
      let u1 := data_url "unigram.json" in
      let u2 := data_url "bigram.json" in
      let u3 := data_url "trigram.json" in
      match fetch u1 with
      | Fetched uni =>
          match fetch u2 with
          | Fetched bi =>
              match fetch u3 with
              | Fetched tri =>
                  let models :=
                    {| unigram := uni; bigram := bi; trigram := tri |} in
                  {| outcome := inl models; cachedModels := Some models;
                     progress := [p0; p1; p2; p3];
                     requests := [u1; u2; u3] |}
              | _ => failed_run None [p0; p1; p2] [u1; u2; u3]
              end
          | _ => failed_run None [p0; p1] [u1; u2]
          end
      | _ => failed_run None [p0] [u1]
      end
  end.

End Loader.

(** What a file name stem may hold: the class [[A-Za-z0-9#-]] and the
    underscore. *)
Definition filename_char (c : ascii) : bool := safe_char c || is_underscore c.

Definition head_underscore (s : string) : bool :=
  match s with
  | String c _ => is_underscore c
  | EmptyString => false
  end.

(** No two underscores side by side. *)
Fixpoint no_double_underscore (s : string) : bool :=
  match s with
  | String c s' =>
      negb (is_underscore c && head_underscore s') && no_double_underscore s'
  | EmptyString => true
  end.

(** * Properties *)

(** ** The model at work *)

Example lit_binary64 :
  lit (num:=float) 6 10 = PrimFloat.div (float_of_Z 6) (float_of_Z 10) ∧
  float_close (lit 367 1000) (lit 3670000001 10000000000) = true ∧
  float_close (lit 367 1000) (lit 368 1000) = false.
Proof. vm_compute. auto. Qed.

Example context_keys :
  context_key 3 ["Dmin"; "C"; "G"; "Amin"]%string = "C,G,Amin"%string ∧
  context_key 3 ["G"; "Amin"]%string = "G,Amin"%string ∧
  context_key 2 progressionA = "G,Amin"%string ∧
  last_chord progressionA = "Amin"%string.
Proof. vm_compute. auto. Qed.

Example scenarioA_reads {R : Realm float} :
  tableReads progressionA (modelsA (num:=float)) DEFAULT_WEIGHTS
    (Some (metadataA 5)) =
    [(Tri, "C,G,Amin"%string); (Bi, "G,Amin"%string); (Uni, "Amin"%string)] ∧
  tableReads progressionA (modelsA (num:=float)) DEFAULT_WEIGHTS
    (Some (metadataA 2)) =
    [(Bi, "G,Amin"%string); (Uni, "Amin"%string)] ∧
  tableReads progressionA (modelsA (num:=float)) DEFAULT_WEIGHTS None =
    [(Uni, "Amin"%string)].
Proof. vm_compute. auto. Qed.

(** The runs of scenario A in binary64, with a strong trigram context,
    with a weak one, and without metadata: every value is positive and
    the values sum to one within the tolerance. *)
Example scenarioA_binary64 {R : Realm float} (md : option Metadata) :
  md ∈ [Some (metadataA 5); Some (metadataA 0); None] →
  let result :=
    computeProbabilities progressionA (modelsA (num:=float)) DEFAULT_WEIGHTS
      md in
  forallb gt0 result.*2 = true ∧
  float_close (total_of result) (lit 1 1) = true.
Proof.
  intros Hmd result. subst result.
  repeat (apply elem_of_cons in Hmd as [->|Hmd]; [by vm_compute|]).
  by apply elem_of_nil in Hmd.
Qed.

(** The keys come in the order of the rows read; a chord that names a
    member of [Object.prototype] is not predicted, and an array index
    comes first. *)
Example scenarioA_exact {R : Realm Qc} :
  (computeProbabilities progressionA (modelsA (num:=Qc)) DEFAULT_WEIGHTS
     (Some (metadataA 5))).*1 =
    ["F"; "C"; "Dmin"; "Emin"; "G"]%string ∧
  this <$> obj_get "F"%string
    (computeProbabilities progressionA (modelsA (num:=Qc)) DEFAULT_WEIGHTS
       (Some (metadataA 5))) = Some (367 # 940) ∧
  this <$> obj_get "F"%string
    (computeProbabilities progressionA (modelsA (num:=Qc)) DEFAULT_WEIGHTS
       None) = Some (11 # 50).
Proof. vm_compute. auto. Qed.

Example inherited_names {R : Realm Qc} :
  let row : JSObject Qc :=
    {| entries := [ ("7", lit 1 4); ("G", lit 1 4);
                    ("constructor", lit 1 4); ("__proto__", lit 1 4) ]%string;
       distinct_keys := I |} in
  let models :=
    {| unigram := {[ "C"%string := row ]}; bigram := ∅; trigram := ∅ |} in
  (λ e, (e.1, this e.2)) <$>
    computeProbabilities ["C"%string] models DEFAULT_WEIGHTS None =
    [("7"%string, 1 # 2); ("G"%string, 1 # 2)] ∧
  computeProbabilities ["toString"%string] models DEFAULT_WEIGHTS None = [] ∧
  tableReads ["toString"%string] models DEFAULT_WEIGHTS None =
    [(Uni, "toString"%string)].
Proof. vm_compute. auto. Qed.

(** ** Which tables a run reads *)

Section Reads.
Context {num : Type} {N : Number num} {R : Realm num}.

(** The trace of [collectRows] is decided by the three guards. *)
Lemma collectRows_reads (progression : list string) (models : Models num)
    (cc : ContextCounts) :
  (collectRows progression models cc).2 =
    ((if (3 <=? length progression)%nat && strong (c_trigram cc)
      then [(Tri, context_key 3 progression)] else []) ++
     (if (2 <=? length progression)%nat && strong (c_bigram cc)
      then [(Bi, context_key 2 progression)] else []) ++
     (if (1 <=? length progression)%nat
      then [(Uni, last_chord progression)] else []))%list.
Proof.
  unfold collectRows.
  destruct ((3 <=? length progression)%nat && strong (c_trigram cc));
    destruct ((2 <=? length progression)%nat && strong (c_bigram cc));
    destruct (1 <=? length progression)%nat; reflexivity.
Qed.

(** The rows and candidates left by [collectRows], guard by guard. *)
Lemma collectRows_rows (progression : list string) (models : Models num)
    (cc : ContextCounts) :
  let r3 := if (3 <=? length progression)%nat && strong (c_trigram cc)
            then getModelProbabilities (trigram models)
                   (context_key 3 progression)
            else Plain ∅ in
  let r2 := if (2 <=? length progression)%nat && strong (c_bigram cc)
            then getModelProbabilities (bigram models)
                   (context_key 2 progression)
            else Plain ∅ in
  let r1 := if (1 <=? length progression)%nat
            then getModelProbabilities (unigram models)
                   (last_chord progression)
            else Plain ∅ in
  (collectRows progression models cc).1 =
    {| trigramProbs := r3; bigramProbs := r2; unigramProbs := r1;
       allNextChords := add_keys (add_keys (add_keys [] r3) r2) r1 |}.
Proof.
  unfold collectRows.
  destruct ((3 <=? length progression)%nat && strong (c_trigram cc));
    destruct ((2 <=? length progression)%nat && strong (c_bigram cc));
    destruct (1 <=? length progression)%nat; reflexivity.
Qed.

(** A run of [computeProbabilities] reads what [collectRows] reads. *)
Lemma tableReads_collectRows (progression : list string)
    (models : Models num) (weights : InterpolationWeights num)
    (metadata : option Metadata) :
  tableReads progression models weights metadata =
    (collectRows progression models
       (getContextCounts progression metadata)).2.
Proof.
  unfold tableReads, computeProbabilitiesT.
  destruct (length progression =? 0)%nat eqn:Hlen.
  - apply Nat.eqb_eq in Hlen. rewrite collectRows_reads, Hlen. reflexivity.
  - unfold mbind, Traced_bind.
    destruct (collectRows _ _ _) as [rows t].
    destruct (length (allNextChords rows) =? 0)%nat; cbn;
      apply app_nil_r.
Qed.

Lemma consulted_cons (o o' : Order) (c : string) t :
  consulted o ((o', c) :: t) ↔ o = o' ∨ consulted o t.
Proof. unfold consulted. rewrite fmap_cons, elem_of_cons. reflexivity. Qed.

Lemma consulted_nil (o : Order) : ¬ consulted o [].
Proof. unfold consulted. cbn. apply not_elem_of_nil. Qed.

Lemma consulted_app (o : Order) t1 t2 :
  consulted o (t1 ++ t2) ↔ consulted o t1 ∨ consulted o t2.
Proof. unfold consulted. rewrite fmap_app, elem_of_app. reflexivity. Qed.

End Reads.

Lemma strong_Some (n : Z) : strong (Some (Counted n)) = true ↔ 3 ≤ n.
Proof. unfold strong, BACKOFF_THRESHOLD. apply Z.leb_le. Qed.

Lemma weak_strong (n : Z) :
  weak (Some (Counted n)) = negb (strong (Some (Counted n))).
Proof.
  unfold weak, strong. rewrite Z.leb_antisym, negb_involutive. reflexivity.
Qed.

Lemma consulted_nil_iff (o : Order) : consulted o [] ↔ False.
Proof. split; [apply consulted_nil | tauto]. Qed.

(** ** Contexts of two and three chords name no inherited member *)

Lemma has_comma_app (s t : string) :
  has_comma (String.append s t) = has_comma s || has_comma t.
Proof.
  induction s as [|c s IH]; [done|].
  change (String.append (String c s) t) with (String c (String.append s t)).
  cbn. by rewrite IH, orb_assoc.
Qed.

Lemma has_comma_concat (x y : string) (l : list string) :
  has_comma (String.concat "," (x :: y :: l)) = true.
Proof.
  change (String.concat "," (x :: y :: l))
    with (String.append x (String.append "," (String.concat "," (y :: l)))).
  rewrite !has_comma_app. cbn. apply orb_true_r.
Qed.

Lemma inherited_no_comma (key : string) :
  inherited key = true → has_comma key = false.
Proof.
  unfold inherited. intros Hkey%bool_decide_eq_true.
  unfold Object_prototype in Hkey.
  repeat (apply elem_of_cons in Hkey as [->|Hkey]; [reflexivity|]).
  by apply elem_of_nil in Hkey.
Qed.

Lemma context_key_plain (n : nat) (progression : list string) :
  (2 ≤ n)%nat → (n ≤ length progression)%nat →
  inherited (context_key n progression) = false.
Proof.
  intros Hn Hlen. apply not_true_iff_false. intros Hin%inherited_no_comma.
  unfold context_key, slice_last in Hin.
  pose proof (length_drop progression (length progression - n)) as Hd.
  destruct (drop (length progression - n) progression) as [|x [|y l]];
    cbn in Hd; [lia..|].
  by rewrite has_comma_concat in Hin.
Qed.

(** Where the key names no inherited member the code reads the count
    that the table holds. *)
Lemma read_count_plain (table : option (gmap string Z)) (context : string) :
  inherited context = false →
  read_count table context = Counted (count_of table context).
Proof.
  intros Hctx. unfold read_count, count_of. destruct table as [t|]; [|done].
  cbn. destruct (t !! context); [done|]. by rewrite Hctx.
Qed.

Lemma getContextCounts_bigram (progression : list string) (md : Metadata) :
  (2 <=? length progression)%nat &&
    strong (c_bigram (getContextCounts progression (Some md))) =
  (2 <=? length progression)%nat &&
    (3 <=? count_of (bigram_counts md) (context_key 2 progression)).
Proof.
  cbn [getContextCounts c_bigram].
  destruct (2 <=? length progression)%nat eqn:Hlen; [|done].
  apply Nat.leb_le in Hlen. by rewrite read_count_plain by
    (by apply context_key_plain).
Qed.

Lemma getContextCounts_trigram (progression : list string) (md : Metadata) :
  (3 <=? length progression)%nat &&
    strong (c_trigram (getContextCounts progression (Some md))) =
  (3 <=? length progression)%nat &&
    (3 <=? count_of (trigram_counts md) (context_key 3 progression)).
Proof.
  cbn [getContextCounts c_trigram].
  destruct (3 <=? length progression)%nat eqn:Hlen; [|done].
  apply Nat.leb_le in Hlen. by rewrite read_count_plain by
    (apply context_key_plain; lia).
Qed.

(** What a run reads, with the metadata supplied, in closed form. *)
Lemma tableReads_metadata {num} {N : Number num} {R : Realm num}
    (progression : list string)
    (models : Models num) (weights : InterpolationWeights num)
    (md : Metadata) :
  tableReads progression models weights (Some md) =
    ((if (3 <=? length progression)%nat &&
          (3 <=? count_of (trigram_counts md) (context_key 3 progression))
      then [(Tri, context_key 3 progression)] else []) ++
     (if (2 <=? length progression)%nat &&
          (3 <=? count_of (bigram_counts md) (context_key 2 progression))
      then [(Bi, context_key 2 progression)] else []) ++
     (if (1 <=? length progression)%nat
      then [(Uni, last_chord progression)] else []))%list.
Proof.
  rewrite tableReads_collectRows, collectRows_reads.
  by rewrite getContextCounts_trigram, getContextCounts_bigram.
Qed.

(** C1.  With the metadata supplied, a run of [computeProbabilities]
    reads the trigram table exactly when the progression has at least
    three chords and the count of its trigram context is at least 3;
    it reads the bigram table exactly when the progression has at
    least two chords and the count of its bigram context is at least
    3; and it reads the unigram table exactly when the progression has
    at least one chord, whatever the count of the unigram context. *)
Theorem C1_order_inclusion_filter {num} {N : Number num} {R : Realm num}
    (progression : list string) (models : Models num)
    (weights : InterpolationWeights num) (md : Metadata) :
  let reads := tableReads progression models weights (Some md) in
  (consulted Tri reads ↔
     (3 ≤ length progression)%nat ∧
     3 ≤ count_of (trigram_counts md) (context_key 3 progression)) ∧
  (consulted Bi reads ↔
     (2 ≤ length progression)%nat ∧
     3 ≤ count_of (bigram_counts md) (context_key 2 progression)) ∧
  (consulted Uni reads ↔ (1 ≤ length progression)%nat).
Proof.
  intros reads. subst reads. rewrite tableReads_metadata.
  rewrite <- !Nat.leb_le, <- !Z.leb_le.
  destruct (3 <=? length progression)%nat;
    destruct (3 <=? count_of (trigram_counts md) _);
    destruct (2 <=? length progression)%nat;
    destruct (3 <=? count_of (bigram_counts md) _);
    destruct (1 <=? length progression)%nat; cbn [andb app];
    rewrite ?consulted_cons, ?consulted_nil_iff;
    intuition congruence.
Qed.

(** C6.  The threshold is "count < 3 is weak": a count of exactly 3
    is strong and a count of 2 is weak.  With a trigram (bigram) count
    of 3, [adjustWeights] skips the trigram (bigram) reduction and the
    table passes the inclusion filter; with a count of 2 the reduction
    is applied and the table is not read. *)
Theorem C6_threshold_boundary {num} {N : Number num} {R : Realm num}
    (w : InterpolationWeights num) (u b t : option Count)
    (progression : list string) (models : Models num) (md : Metadata) :
  let reads := tableReads progression models w (Some md) in
  let count3 := count_of (trigram_counts md) (context_key 3 progression) in
  let count2 := count_of (bigram_counts md) (context_key 2 progression) in
  (weak (Some (Counted 3)) = false ∧ strong (Some (Counted 3)) = true) ∧
  (weak (Some (Counted 2)) = true ∧ strong (Some (Counted 2)) = false) ∧
  adjustWeights w
    {| c_unigram := u; c_bigram := b; c_trigram := Some (Counted 3) |} =
    normalizeWeights (if weak b then reduceBigram w else w) ∧
  adjustWeights w
    {| c_unigram := u; c_bigram := b; c_trigram := Some (Counted 2) |} =
    normalizeWeights
      (if weak b then reduceBigram (reduceTrigram w) else reduceTrigram w) ∧
  adjustWeights w
    {| c_unigram := u; c_bigram := Some (Counted 3); c_trigram := t |} =
    normalizeWeights (if weak t then reduceTrigram w else w) ∧
  adjustWeights w
    {| c_unigram := u; c_bigram := Some (Counted 2); c_trigram := t |} =
    normalizeWeights (reduceBigram (if weak t then reduceTrigram w else w)) ∧
  ((3 ≤ length progression)%nat → count3 = 3 → consulted Tri reads) ∧
  (count3 = 2 → ¬ consulted Tri reads) ∧
  ((2 ≤ length progression)%nat → count2 = 3 → consulted Bi reads) ∧
  (count2 = 2 → ¬ consulted Bi reads).
Proof.
  intros reads count3 count2.
  subst reads count3 count2. rewrite tableReads_metadata.
  repeat split; try reflexivity.
  - intros Hlen Hc. apply Nat.leb_le in Hlen. rewrite Hlen, Hc. cbn.
    rewrite consulted_cons. by left.
  - intros Hc. rewrite Hc, andb_false_r. cbn.
    repeat case_match; cbn;
      rewrite ?consulted_cons, ?consulted_nil_iff; intuition congruence.
  - intros Hlen Hc. apply Nat.leb_le in Hlen. rewrite Hlen, Hc. cbn.
    rewrite consulted_app, consulted_cons. right. by left.
  - intros Hc. rewrite Hc, andb_false_r. cbn.
    repeat case_match; cbn;
      rewrite ?consulted_cons, ?consulted_nil_iff; intuition congruence.
Qed.

(** ** Exact arithmetic *)

Lemma Qc_gt0_true (x : Qc) : Qc_gt0 x = true ↔ (0 < x)%Qc.
Proof.
  unfold Qc_gt0. rewrite negb_true_iff, <- not_true_iff_false, Qle_bool_iff.
  split; [apply Qnot_le_lt | apply Qlt_not_le].
Qed.

Lemma Qc_gt0_false (x : Qc) : Qc_gt0 x = false ↔ ¬ (0 < x)%Qc.
Proof. rewrite <- Qc_gt0_true. symmetry. apply not_true_iff_false. Qed.

Lemma or_zero_Qc (v : Qc) : or_zero (VNumber v) = Some v.
Proof.
  cbn. destruct (Qeq_bool v 0) eqn:Hv; [|reflexivity]. cbn.
  apply Qeq_bool_eq in Hv. f_equal. symmetry. apply Qc_is_canon. exact Hv.
Qed.

(** Linear goals over [Qc], through [Q]. *)
Ltac qc_lra :=
  try apply Qc_is_canon;
  unfold Qclt, Qcle in *;
  repeat match goal with
         | H : @eq Qc _ _ |- _ => apply (f_equal this) in H
         end;
  cbn [this Qcplus Qcminus Qcmult Qcopp Q2Qc] in *;
  rewrite ?Qred_correct in *; lra.

Section WeightsQc.
Local Open Scope Qc_scope.
Implicit Types w : InterpolationWeights Qc.

Lemma reduceTrigram_sum w : weight_sum (reduceTrigram w) = weight_sum w.
Proof.
  unfold weight_sum, reduceTrigram. cbn -[Q2Qc Qcplus Qcminus Qcmult].
  qc_lra.
Qed.

Lemma reduceBigram_sum w : weight_sum (reduceBigram w) = weight_sum w.
Proof. unfold weight_sum, reduceBigram. cbn. ring. Qed.

Lemma normalizeWeights_pos w :
  0 < weight_sum w →
  normalizeWeights w =
    {| lambda3 := lambda3 w / weight_sum w;
       lambda2 := lambda2 w / weight_sum w;
       lambda1 := lambda1 w / weight_sum w |}.
Proof.
  intros Hpos. unfold normalizeWeights. fold (weight_sum w). cbn [gt0 Qc_Number].
  apply Qc_gt0_true in Hpos. rewrite Hpos. reflexivity.
Qed.

Lemma normalizeWeights_nonpos w :
  ¬ 0 < weight_sum w → normalizeWeights w = w.
Proof.
  intros Hpos. unfold normalizeWeights. fold (weight_sum w). cbn [gt0 Qc_Number].
  apply Qc_gt0_false in Hpos. rewrite Hpos. reflexivity.
Qed.

Lemma normalizeWeights_sum w :
  0 < weight_sum w → weight_sum (normalizeWeights w) = 1.
Proof.
  intros Hpos. rewrite (normalizeWeights_pos w Hpos).
  apply Qclt_not_eq in Hpos. unfold weight_sum in *. cbn in *.
  field. intros E. apply Hpos. symmetry. exact E.
Qed.

Lemma adjustWeights_backedOff w cc :
  adjustWeights w cc = normalizeWeights (backedOff w cc).
Proof. reflexivity. Qed.

Lemma backedOff_sum w cc : weight_sum (backedOff w cc) = weight_sum w.
Proof.
  unfold backedOff.
  destruct (weak (c_trigram cc)), (weak (c_bigram cc));
    rewrite ?reduceBigram_sum, ?reduceTrigram_sum; reflexivity.
Qed.

Lemma adjustWeights_sum w cc :
  0 < weight_sum w → weight_sum (adjustWeights w cc) = 1.
Proof.
  intros Hpos. rewrite adjustWeights_backedOff.
  apply normalizeWeights_sum. rewrite backedOff_sum. exact Hpos.
Qed.

End WeightsQc.

(** ** Objects and sets in insertion order *)

Section Objects.
Context {V : Type}.
Implicit Types (o : Obj V) (k : string) (v : V).

Lemma obj_get_None k o : obj_get k o = None ↔ k ∉ o.*1.
Proof.
  induction o as [|[k' v'] o IH]; cbn.
  - split; [intros _; apply not_elem_of_nil | done].
  - rewrite not_elem_of_cons. case_decide; subst.
    + split; [done | intros []; congruence].
    + rewrite IH. intuition congruence.
Qed.


Lemma obj_get_Some_elem k v o : obj_get k o = Some v → (k, v) ∈ o.
Proof.
  induction o as [|[k' v'] o IH]; cbn; [done|].
  case_decide; subst.
  - intros [= ->]. apply elem_of_cons. by left.
  - intros H'. apply elem_of_cons. right. by apply IH.
Qed.


Lemma obj_get_replace k k' v o :
  is_Some (obj_get k o) →
  obj_get k' (obj_replace k v o) =
    if decide (k = k') then Some v else obj_get k' o.
Proof.
  induction o as [|[k0 v0] o IH]; cbn; [by intros [? [=]]|].
  destruct (decide (k0 = k)) as [->|Hk0]; cbn.
  - intros _. repeat case_decide; congruence.
  - intros Hk. rewrite (IH Hk). repeat case_decide; congruence.
Qed.

Lemma obj_get_insert_index (n : N) k k' v o :
  obj_get k o = None →
  obj_get k' (obj_insert_index n k v o) =
    if decide (k = k') then Some v else obj_get k' o.
Proof.
  induction o as [|[k0 v0] o IH]; cbn; [done|].
  destruct (decide (k0 = k)) as [->|Hk0]; [done|]. intros Hk.
  destruct (array_index k0) as [n'|]; [destruct (n' <? n)%N|]; cbn;
    rewrite ?(IH Hk); repeat case_decide; congruence.
Qed.

Lemma obj_get_snoc k k' v o :
  obj_get k o = None →
  obj_get k' (o ++ [(k, v)]) =
    if decide (k = k') then Some v else obj_get k' o.
Proof.
  induction o as [|[k0 v0] o IH]; cbn; [done|].
  destruct (decide (k0 = k)) as [->|Hk0]; [done|]. intros Hk.
  rewrite (IH Hk). repeat case_decide; congruence.
Qed.

(** Reading after an assignment: the key [__proto__] apart, the
    assigned key holds the value and the others are as before. *)
Lemma obj_get_set k k' v o :
  obj_get k' (obj_set k v o) =
    if String.eqb k "__proto__" then obj_get k' o
    else if decide (k = k') then Some v else obj_get k' o.
Proof.
  unfold obj_set. destruct (String.eqb k "__proto__"); [done|].
  destruct (obj_get k o) as [v0|] eqn:Hk.
  - apply obj_get_replace. by rewrite Hk.
  - destruct (array_index k) as [n|];
      [by apply obj_get_insert_index | by apply obj_get_snoc].
Qed.

Lemma obj_insert_index_perm (n : N) k v o :
  obj_insert_index n k v o ≡ₚ (k, v) :: o.
Proof.
  induction o as [|[k0 v0] o IH]; cbn; [done|].
  destruct (array_index k0) as [n'|]; [destruct (n' <? n)%N|]; [|done..].
  rewrite IH. apply Permutation_swap.
Qed.

(** A new key adds one entry and moves none out. *)
Lemma obj_set_fresh k v o :
  k ∉ o.*1 → String.eqb k "__proto__" = false →
  obj_set k v o ≡ₚ (k, v) :: o.
Proof.
  intros Hk%obj_get_None Hproto. unfold obj_set. rewrite Hproto, Hk.
  destruct (array_index k) as [n|]; [apply obj_insert_index_perm|].
  by rewrite Permutation_app_comm.
Qed.

Lemma obj_replace_Forall (P : string * V → Prop) k v o :
  Forall P o → P (k, v) → Forall P (obj_replace k v o).
Proof.
  intros Ho Hkv. induction Ho as [|[k0 v0] o H0 Ho IH]; cbn; [done|].
  case_decide; constructor; auto.
Qed.

Lemma obj_set_Forall (P : string * V → Prop) k v o :
  Forall P o → P (k, v) → Forall P (obj_set k v o).
Proof.
  intros Ho Hkv. unfold obj_set. destruct (String.eqb k "__proto__"); [done|].
  destruct (obj_get k o); [by apply obj_replace_Forall|].
  destruct (array_index k) as [n|].
  - rewrite obj_insert_index_perm. by constructor.
  - apply Forall_app. split; [done | by constructor].
Qed.

Lemma obj_get_fmap (f : V → V) k o :
  obj_get k ((λ e, (e.1, f e.2)) <$> o) = f <$> obj_get k o.
Proof.
  induction o as [|[k0 v0] o IH]; cbn; [done|].
  case_decide; [done | apply IH].
Qed.


End Objects.

Lemma elem_of_set_add (s : list string) (x y : string) :
  y ∈ set_add s x ↔ y ∈ s ∨ y = x.
Proof.
  unfold set_add. case_decide.
  - split; [by left | intros [?| ->]; done].
  - rewrite elem_of_app, list_elem_of_singleton. reflexivity.
Qed.

Lemma NoDup_set_add (s : list string) (x : string) :
  NoDup s → NoDup (set_add s x).
Proof.
  intros Hs. unfold set_add. case_decide; [done|].
  apply list.NoDup_app. split_and!; [done| |apply NoDup_singleton].
  intros y Hy ->%list_elem_of_singleton. done.
Qed.

Lemma foldl_set_add_elem (l s : list string) (y : string) :
  y ∈ foldl set_add s l ↔ y ∈ s ∨ y ∈ l.
Proof.
  revert s. induction l as [|x l IH]; intros s; cbn.
  - rewrite elem_of_nil. tauto.
  - rewrite IH, elem_of_set_add, elem_of_cons. tauto.
Qed.

Lemma foldl_set_add_NoDup (l s : list string) :
  NoDup s → NoDup (foldl set_add s l).
Proof.
  revert s. induction l as [|x l IH]; intros s Hs; cbn; [done|].
  apply IH, NoDup_set_add, Hs.
Qed.


Lemma JSObject_NoDup {A} (o : JSObject A) : NoDup (entries o).*1.
Proof. apply (bool_decide_unpack _ (distinct_keys o)). Qed.

Lemma JSObject_eq {A} (o o' : JSObject A) : entries o = entries o' → o = o'.
Proof.
  destruct o as [l H], o' as [l' H']. cbn. intros ->.
  f_equal. apply proof_irrel.
Qed.

Section Candidates.
Context {num : Type} {N : Number num} {R : Realm num}.


Lemma elem_of_add_keys (s : list string) (r : Row num) (y : string) :
  y ∈ add_keys s r ↔ y ∈ s ∨ y ∈ Object_keys r.
Proof. unfold add_keys. by rewrite foldl_set_add_elem. Qed.

Lemma NoDup_add_keys (s : list string) (r : Row num) :
  NoDup s → NoDup (add_keys s r).
Proof. apply foldl_set_add_NoDup. Qed.


Lemma add_keys_empty (s : list string) : add_keys s (Plain ∅ : Row num) = s.
Proof. reflexivity. Qed.

(** The candidates are the keys of the rows that were read, each once. *)
Lemma collectRows_candidates (progression : list string)
    (models : Models num) (cc : ContextCounts) :
  let rows := (collectRows progression models cc).1 in
  NoDup (allNextChords rows) ∧
  ∀ chord, chord ∈ allNextChords rows ↔
    chord ∈ Object_keys (trigramProbs rows) ∨
    chord ∈ Object_keys (bigramProbs rows) ∨
    chord ∈ Object_keys (unigramProbs rows).
Proof.
  intros rows. subst rows. rewrite collectRows_rows. cbn. split.
  - do 3 apply NoDup_add_keys. apply NoDup_nil_2.
  - intros chord. rewrite !elem_of_add_keys, elem_of_nil. tauto.
Qed.

(** ** The blending loop *)

Implicit Types (w : InterpolationWeights num) (rows : @Rows num).

(** What [scored] gives is what the loop writes. *)
Lemma scored_Some w rows (c : string) (e : string * num) :
  scored w rows c = Some e ↔
  e.1 = c ∧ interpolated w rows c = Some e.2 ∧ gt0 e.2 = true ∧
  String.eqb c "__proto__" = false.
Proof.
  unfold scored. destruct (interpolated w rows c) as [s|].
  - destruct (gt0 s) eqn:Hs, (String.eqb c "__proto__") eqn:Hc; cbn;
      (split; [intros [= <-] | intros (H1 & [= H2] & H3 & H4)]);
      try done; cbn in *; try congruence.
    destruct e; cbn in *; congruence.
  - split; [done | by intros (_ & [=] & _)].
Qed.

Lemma blend_step_scored w rows (acc : Obj num) (c : string) :
  blend_step w rows acc c =
    match scored w rows c with
    | Some e => obj_set e.1 e.2 acc
    | None => acc
    end.
Proof.
  unfold blend_step, scored. destruct (interpolated w rows c) as [s|]; [|done].
  destruct (gt0 s); [|done]. cbn [andb].
  destruct (String.eqb c "__proto__") eqn:Hc; cbn [negb fst snd]; [|done].
  unfold obj_set. by rewrite Hc.
Qed.

Lemma obj_get_set_scored w rows (c k : string) (e : string * num)
    (acc : Obj num) :
  scored w rows c = Some e →
  obj_get k (obj_set e.1 e.2 acc) =
    if decide (c = k) then Some e.2 else obj_get k acc.
Proof.
  intros (-> & _ & _ & Hproto)%scored_Some.
  by rewrite obj_get_set, Hproto.
Qed.

Lemma blend_from_get w rows (cands : list string) (acc : Obj num)
    (chord : string) :
  obj_get chord (foldl (blend_step w rows) acc cands) =
    if decide (chord ∈ cands)
    then match scored w rows chord with
         | Some e => Some e.2
         | None => obj_get chord acc
         end
    else obj_get chord acc.
Proof.
  revert acc. induction cands as [|c cands IH]; intros acc; cbn.
  - rewrite decide_False; [done | apply not_elem_of_nil].
  - rewrite IH, blend_step_scored.
    destruct (decide (chord ∈ cands)) as [Hin|Hnin].
    + rewrite decide_True by (apply elem_of_cons; by right).
      destruct (scored w rows chord) as [e|] eqn:Hs; [done|].
      destruct (scored w rows c) as [e'|] eqn:Hc; [|done].
      rewrite (obj_get_set_scored _ _ _ _ _ _ Hc).
      case_decide; [subst; congruence | done].
    + destruct (decide (chord = c)) as [->|Hne].
      * rewrite decide_True by (apply elem_of_cons; by left).
        destruct (scored w rows c) as [e'|] eqn:Hc; [|done].
        rewrite (obj_get_set_scored _ _ _ _ _ _ Hc). by rewrite decide_True.
      * rewrite decide_False by (rewrite elem_of_cons; tauto).
        destruct (scored w rows c) as [e'|] eqn:Hc; [|done].
        rewrite (obj_get_set_scored _ _ _ _ _ _ Hc).
        rewrite decide_False; [done | congruence].
Qed.

(** The entry of a chord in [finalProbs] only depends on whether the
    chord is a candidate, not on where it comes in the iteration. *)
Lemma blend_get w rows (cands : list string) (chord : string) :
  obj_get chord (blend w rows cands) =
    if decide (chord ∈ cands) then snd <$> scored w rows chord else None.
Proof.
  unfold blend. rewrite blend_from_get. case_decide; [|done].
  by destruct (scored w rows chord).
Qed.

Lemma blend_from_omap w rows (cands : list string) (acc : Obj num) :
  NoDup cands → (∀ c, c ∈ cands → c ∉ acc.*1) →
  foldl (blend_step w rows) acc cands ≡ₚ acc ++ omap (scored w rows) cands.
Proof.
  revert acc. induction cands as [|c cands IH]; intros acc Hnd Hfresh; cbn.
  - by rewrite app_nil_r.
  - apply list.NoDup_cons in Hnd as [Hc Hnd].
    rewrite blend_step_scored.
    destruct (scored w rows c) as [e|] eqn:Hs.
    + pose proof Hs as (He & _ & _ & Hproto)%scored_Some.
      assert (Hset : obj_set e.1 e.2 acc ≡ₚ e :: acc).
      { destruct e as [k s]. cbn in *. subst k.
        apply obj_set_fresh; [|done]. apply Hfresh, elem_of_cons. by left. }
      rewrite IH; [rewrite Hset; cbn; apply Permutation_middle|done|].
      intros c' Hc'. rewrite Hset, fmap_cons, not_elem_of_cons, He.
      split; [by intros -> | apply Hfresh, elem_of_cons; by right].
    + apply IH; [done|]. intros c' Hc'. apply Hfresh, elem_of_cons. by right.
Qed.

(** The entries of [finalProbs] are the entries that [scored] gives
    for the candidates. *)
Lemma blend_omap w rows (cands : list string) :
  NoDup cands → blend w rows cands ≡ₚ omap (scored w rows) cands.
Proof.
  intros Hnd. unfold blend. rewrite blend_from_omap; [done..|].
  intros c _. apply not_elem_of_nil.
Qed.

Lemma blend_positive w rows (cands : list string) :
  Forall (λ e, gt0 e.2 = true) (blend w rows cands).
Proof.
  unfold blend. generalize (Forall_nil (λ e : string * num, gt0 e.2 = true)).
  generalize (@nil (string * num)) as acc.
  induction cands as [|c cands IH]; intros acc Hacc; cbn; [done|].
  apply IH. rewrite blend_step_scored.
  destruct (scored w rows c) as [e|] eqn:Hc; [|done].
  apply scored_Some in Hc as (_ & _ & Hpos & _).
  by apply obj_set_Forall.
Qed.




Lemma normalizeProbs_keys (o : Obj num) : (normalizeProbs o).*1 = o.*1.
Proof.
  unfold normalizeProbs. destruct (gt0 _); [|done].
  rewrite <- list_fmap_compose. by apply list_fmap_ext.
Qed.

End Candidates.

(** The value returned is the normalised result of the loop over the
    candidates that [collectRows] leaves; the two early returns agree
    with it. *)
Lemma computeProbabilities_blend {num} {N : Number num} {R : Realm num}
    (progression : list string) (models : Models num)
    (weights : InterpolationWeights num) (metadata : option Metadata) :
  let cc := getContextCounts progression metadata in
  let rows := (collectRows progression models cc).1 in
  computeProbabilities progression models weights metadata =
    normalizeProbs (blend (adjustWeights weights cc) rows (allNextChords rows)).
Proof.
  intros cc rows. unfold computeProbabilities, computeProbabilitiesT.
  assert (Hnil : normalizeProbs (blend (adjustWeights weights cc) rows [])
                 = []).
  { unfold normalizeProbs, blend. cbn. by destruct (gt0 _). }
  destruct (length progression =? 0)%nat eqn:Hlen.
  - apply Nat.eqb_eq in Hlen. subst rows. rewrite collectRows_rows.
    rewrite Hlen. cbn [Nat.leb andb allNextChords].
    rewrite !add_keys_empty. cbn.
    unfold normalizeProbs, blend. cbn. by destruct (gt0 _).
  - fold cc. subst rows. unfold mbind, Traced_bind.
    destruct (collectRows progression models cc) as [rows t]. cbn [fst].
    destruct (length (allNextChords rows) =? 0)%nat eqn:Hcand; cbn; [|done].
    apply Nat.eqb_eq, nil_length_inv in Hcand. by rewrite Hcand.
Qed.

(** ** Sums and the final division, in exact arithmetic *)

Section SumsQc.
Local Open Scope Qc_scope.
Implicit Types (l : list Qc) (o : Obj Qc).

Lemma foldl_Qcplus_shift (a : Qc) l :
  foldl Qcplus a l = a + foldl Qcplus 0 l.
Proof.
  revert a. induction l as [|x l IH]; intros a; cbn [foldl].
  - ring.
  - rewrite (IH (a + x)), (IH (0 + x)). ring.
Qed.

Lemma total_of_nil : total_of (@nil (string * Qc)) = 0.
Proof. reflexivity. Qed.

Lemma total_of_Qc o : total_of o = foldl Qcplus 0 o.*2.
Proof. reflexivity. Qed.

Lemma total_of_cons (e : string * Qc) o : total_of (e :: o) = e.2 + total_of o.
Proof.
  rewrite !total_of_Qc, fmap_cons. cbn [foldl].
  rewrite foldl_Qcplus_shift. ring.
Qed.

Lemma total_of_perm o o' : o ≡ₚ o' → total_of o = total_of o'.
Proof.
  induction 1 as [|e o o' _ IH|e e' o|o o' o'' _ IH1 _ IH2].
  - done.
  - by rewrite !total_of_cons, IH.
  - rewrite !total_of_cons. ring.
  - by rewrite IH1.
Qed.

Lemma total_of_nonneg o : Forall (λ e, 0 < e.2) o → 0 ≤ total_of o.
Proof.
  induction 1 as [|e o He _ IH].
  - rewrite total_of_nil. apply Qcle_refl.
  - rewrite total_of_cons. apply Qcplus_nonneg_nonneg; [|done].
    by apply Qclt_le_weak.
Qed.

Lemma total_of_pos o : Forall (λ e, 0 < e.2) o → o ≠ [] → 0 < total_of o.
Proof.
  intros Ho Hne. destruct Ho as [|e o He Ho]; [done|].
  rewrite total_of_cons. apply Qcplus_pos_nonneg; [done|].
  by apply total_of_nonneg.
Qed.

Lemma total_of_scale (t : Qc) o :
  total_of ((λ e, (e.1, e.2 / t)) <$> o) = total_of o / t.
Proof.
  induction o as [|e o IH].
  - rewrite fmap_nil, total_of_nil. unfold Qcdiv. ring.
  - rewrite fmap_cons, !total_of_cons, IH. cbn [fst snd].
    unfold Qcdiv. ring.
Qed.

Lemma Qcdiv_pos (x t : Qc) : 0 < x → 0 < t → 0 < x / t.
Proof. intros Hx Ht. apply Qcmult_pos_pos; [done | by apply Qcinv_pos]. Qed.

Lemma gt0_Forall o :
  Forall (λ e, gt0 e.2 = true) o → Forall (λ e, 0 < e.2) o.
Proof. apply Forall_impl. intros e. apply Qc_gt0_true. Qed.

(** The final division, on an object whose values are positive. *)
Lemma normalizeProbs_positive o :
  Forall (λ e, 0 < e.2) o → o ≠ [] →
  0 < total_of o ∧
  normalizeProbs o = (λ e, (e.1, e.2 / total_of o)) <$> o.
Proof.
  intros Ho Hne. pose proof (total_of_pos o Ho Hne) as Hpos.
  split; [done|]. unfold normalizeProbs. cbn [gt0 Qc_Number].
  apply Qc_gt0_true in Hpos. by rewrite Hpos.
Qed.

Lemma normalizeProbs_distribution o :
  Forall (λ e, 0 < e.2) o →
  normalizeProbs o = [] ∨
  (Forall (λ e, 0 < e.2) (normalizeProbs o) ∧ total_of (normalizeProbs o) = 1).
Proof.
  intros Ho. destruct o as [|e o]; [left; cbn; reflexivity|right].
  destruct (normalizeProbs_positive (e :: o) Ho) as [Hpos ->]; [done|].
  split.
  - apply Forall_fmap. revert Ho. apply Forall_impl. intros e' He'. cbn.
    by apply Qcdiv_pos.
  - rewrite total_of_scale. apply Qclt_not_eq in Hpos.
    field. intros E. apply Hpos. by rewrite E.
Qed.

Lemma normalizeProbs_get o (k : string) :
  Forall (λ e, 0 < e.2) o →
  obj_get k (normalizeProbs o) = (λ v, v / total_of o) <$> obj_get k o.
Proof.
  intros Ho. destruct o as [|e o]; [reflexivity|].
  destruct (normalizeProbs_positive (e :: o) Ho) as [_ ->]; [done|].
  apply (obj_get_fmap (λ v, v / total_of (e :: o))).
Qed.

End SumsQc.

(** ** The returned mapping *)





(** C7.  For every arithmetic: the empty progression yields the empty
    mapping; so does an empty candidate set; so does a run in which no
    candidate has a positive score.  In exact arithmetic, a zero total
    of the blended scores yields the empty mapping.  The function is
    total: no input raises an error. *)
Theorem C7_empty_distribution :
  (∀ (num : Type) (N : Number num) (R : Realm num) (models : Models num)
     weights metadata,
     computeProbabilities [] models weights metadata = []) ∧
  (∀ (num : Type) (N : Number num) (R : Realm num) progression
     (models : Models num) weights metadata,
     let cc := getContextCounts progression metadata in
     let rows := (collectRows progression models cc).1 in
     (allNextChords rows = [] →
      computeProbabilities progression models weights metadata = []) ∧
     ((∀ chord, chord ∈ allNextChords rows →
         positive (interpolated (adjustWeights weights cc) rows chord)
           = false) →
      computeProbabilities progression models weights metadata = [])) ∧
  (∀ (R : Realm Qc) progression (models : Models Qc) weights metadata,
     let cc := getContextCounts progression metadata in
     let rows := (collectRows progression models cc).1 in
     total_of (blend (adjustWeights weights cc) rows (allNextChords rows))
       = 0%Qc →
     computeProbabilities progression models weights metadata = []).
Proof.
  split_and!.
  - reflexivity.
  - intros num N R progression models weights metadata cc rows.
    assert (Hnil : normalizeProbs (@nil (string * num)) = []).
    { unfold normalizeProbs. by destruct (gt0 _). }
    rewrite computeProbabilities_blend. fold cc rows. split.
    + intros ->. exact Hnil.
    + intros Hscores.
      destruct (collectRows_candidates progression models cc) as [Hnd _].
      fold rows in Hnd.
      replace (blend _ _ _) with (@nil (string * num)); [exact Hnil|].
      symmetry. apply Permutation_nil. rewrite blend_omap by done.
      replace (omap _ _) with (@nil (string * num)); [done|].
      symmetry. clear Hnd. induction (allNextChords rows) as [|c l IH];
        [done|].
      cbn [omap list_omap]. unfold scored at 1.
      specialize (Hscores c (list_elem_of_here _ _)) as Hc.
      destruct (interpolated _ rows c) as [s|]; cbn in Hc; rewrite ?Hc; cbn;
        apply IH; intros chord Hin; apply Hscores, elem_of_cons; by right.
  - intros R progression models weights metadata cc rows Htotal.
    rewrite computeProbabilities_blend. fold cc rows.
    pose proof (gt0_Forall _ (blend_positive (adjustWeights weights cc) rows
                                (allNextChords rows))) as Hpos.
    destruct (blend _ _ _) as [|e o] eqn:Hblend; [reflexivity|].
    exfalso. apply (Qclt_not_eq 0%Qc (total_of (e :: o))); [|done].
    by apply total_of_pos.
Qed.

(** ** The order of the keys *)


Section SameModels.
Context {num : Type} {N : Number num} {R : Realm num}.
Implicit Types (w : InterpolationWeights num) (r : Row num).








End SameModels.



(** ** The adjusted weights *)

(** In binary64 the adjusted default weights only depend on which of
    the two contexts are weak: four runs cover every count. *)
Lemma adjustWeights_float_default_sum (cc : ContextCounts) :
  weight_sum (adjustWeights (num:=float) DEFAULT_WEIGHTS cc) = lit 1 1.
Proof.
  unfold adjustWeights, backedOff.
  destruct (weak (c_trigram cc)), (weak (c_bigram cc));
    vm_compute; reflexivity.
Qed.






(** ** The worked scenarios *)

Lemma scenarioA_rows {num} {N : Number num} {R : Realm num}
    (models : Models num) (md : Metadata) :
  scenarioA models md →
  let cc := getContextCounts progressionA (Some md) in
  let rows := (collectRows progressionA models cc).1 in
  c_trigram cc = Some (Counted 5) ∧ c_bigram cc = Some (Counted 5) ∧
  row_get (trigramProbs rows) "F" = VNumber (lit 40 100) ∧
  row_get (bigramProbs rows) "F" = VNumber (lit 35 100) ∧
  row_get (unigramProbs rows) "F" = VNumber (lit 22 100) ∧
  "F"%string ∈ allNextChords rows.
Proof.
  intros (H3 & Hc3 & (r2 & H2 & HF2) & Hc2 & (r1 & H1 & HF1)) cc rows.
  assert (E3 : c_trigram cc = Some (Counted 5)).
  { cbn. rewrite read_count_plain by done. by rewrite <- Hc3. }
  assert (E2 : c_bigram cc = Some (Counted 5)).
  { cbn. rewrite read_count_plain by done. by rewrite <- Hc2. }
  assert (H3' : trigramProbs rows = Plain trigram_rowA).
  { subst rows. rewrite collectRows_rows, E3. cbn [trigramProbs].
    change ((3 <=? length progressionA)%nat && strong (Some (Counted 5)))
      with true.
    change (context_key 3 progressionA) with "C,G,Amin"%string.
    cbv iota. unfold getModelProbabilities. by rewrite H3. }
  split_and!; try done.
  - by rewrite H3'.
  - subst rows. rewrite collectRows_rows, E2. cbn [bigramProbs].
    change ((2 <=? length progressionA)%nat && strong (Some (Counted 5)))
      with true.
    change (context_key 2 progressionA) with "G,Amin"%string.
    cbv iota. unfold getModelProbabilities. rewrite H2. cbn.
    unfold obj_read. by rewrite HF2.
  - subst rows. rewrite collectRows_rows. cbn [unigramProbs].
    change (1 <=? length progressionA)%nat with true.
    change (last_chord progressionA) with "Amin"%string.
    cbv iota. unfold getModelProbabilities. rewrite H1. cbn.
    unfold obj_read. by rewrite HF1.
  - apply (collectRows_candidates progressionA models cc). left.
    fold rows. rewrite H3'. cbn. apply elem_of_cons. by left.
Qed.

(** C5.  In scenario A the adjusted weights are the base weights
    0.60, 0.30, 0.10, and the blended score of F before the final
    division is 0.367; in exact arithmetic and in binary64. *)
Theorem C5_scenario_A {RQ : Realm Qc} {RF : Realm float}
    (modelsQ : Models Qc) (modelsF : Models float) (md : Metadata) :
  scenarioA modelsQ md → scenarioA modelsF md →
  let cc := getContextCounts progressionA (Some md) in
  let rowsQ := (collectRows progressionA modelsQ cc).1 in
  let rowsF := (collectRows progressionA modelsF cc).1 in
  (adjustWeights (num:=Qc) DEFAULT_WEIGHTS cc = DEFAULT_WEIGHTS ∧
   interpolated (adjustWeights DEFAULT_WEIGHTS cc) rowsQ "F"
     = Some (lit 367 1000) ∧
   obj_get "F"%string
     (blend (adjustWeights DEFAULT_WEIGHTS cc) rowsQ (allNextChords rowsQ))
     = Some (lit 367 1000)) ∧
  (adjustWeights (num:=float) DEFAULT_WEIGHTS cc = DEFAULT_WEIGHTS ∧
   interpolated (adjustWeights DEFAULT_WEIGHTS cc) rowsF "F"
     = Some (lit 367 1000) ∧
   obj_get "F"%string
     (blend (adjustWeights DEFAULT_WEIGHTS cc) rowsF (allNextChords rowsF))
     = Some (lit 367 1000)).
Proof.
  intros HQ HF cc rowsQ rowsF.
  destruct (scenarioA_rows modelsQ md HQ)
    as (E3 & E2 & Q3 & Q2 & Q1 & Qin).
  destruct (scenarioA_rows modelsF md HF) as (_ & _ & F3 & F2 & F1 & Fin).
  fold cc in E3, E2. fold cc rowsQ in Q3, Q2, Q1, Qin.
  fold cc rowsF in F3, F2, F1, Fin.
  assert (WQ : adjustWeights (num:=Qc) DEFAULT_WEIGHTS cc = DEFAULT_WEIGHTS).
  { unfold adjustWeights, backedOff. rewrite E3, E2. cbn [weak Z.ltb].
    rewrite normalizeWeights_pos by reflexivity.
    unfold DEFAULT_WEIGHTS. f_equal; apply Qc_is_canon; reflexivity. }
  assert (WF : adjustWeights (num:=float) DEFAULT_WEIGHTS cc
               = DEFAULT_WEIGHTS).
  { unfold adjustWeights, backedOff. rewrite E3, E2. vm_compute.
    reflexivity. }
  assert (SQ : interpolated (DEFAULT_WEIGHTS (num:=Qc)) rowsQ "F"
               = Some (lit 367 1000)).
  { unfold interpolated. rewrite Q3, Q2, Q1, !or_zero_Qc. cbn.
    f_equal. apply Qc_is_canon. reflexivity. }
  assert (SF : interpolated (DEFAULT_WEIGHTS (num:=float)) rowsF "F"
               = Some (lit 367 1000)).
  { unfold interpolated. rewrite F3, F2, F1. vm_compute. reflexivity. }
  rewrite WQ, WF, !blend_get. unfold scored. rewrite SQ, SF.
  rewrite !decide_True by done.
  split; split_and!; try done.
Qed.

Lemma C5_scenario_A_witness :
  let cc := getContextCounts progressionA (Some (metadataA 5)) in
  let rowsQ := (collectRows progressionA (modelsA (num:=Qc)) cc).1 in
  let rowsF := (collectRows progressionA (modelsA (num:=float)) cc).1 in
  interpolated (R:=bare_members) (adjustWeights DEFAULT_WEIGHTS cc) rowsQ "F"
    = Some (lit 367 1000) ∧
  interpolated (R:=bare_members) (adjustWeights DEFAULT_WEIGHTS cc) rowsF "F"
    = Some (lit 367 1000).
Proof.
  intros cc rowsQ rowsF.
  assert (HQ : scenarioA (modelsA (num:=Qc)) (metadataA 5)).
  { unfold scenarioA. split_and!; try reflexivity;
      eexists; split; reflexivity. }
  assert (HF : scenarioA (modelsA (num:=float)) (metadataA 5)).
  { unfold scenarioA. split_and!; try reflexivity;
      eexists; split; reflexivity. }
  pose proof (C5_scenario_A (RQ:=bare_members) (RF:=bare_members)
                modelsA modelsA (metadataA 5) HQ HF) as H.
  split; apply H.
Defined.

(** With a trigram count below the threshold the trigram row stays
    empty and the candidates come from the other two rows. *)
Lemma collectRows_weak_trigram {num} {N : Number num} {R : Realm num}
    (progression : list string) (models : Models num) (cc : ContextCounts) :
  strong (c_trigram cc) = false →
  let rows := (collectRows progression models cc).1 in
  trigramProbs rows = Plain ∅ ∧
  ∀ chord, chord ∈ allNextChords rows ↔
    chord ∈ Object_keys (bigramProbs rows) ∨
    chord ∈ Object_keys (unigramProbs rows).
Proof.
  intros Hweak rows.
  assert (H3 : trigramProbs rows = Plain ∅).
  { subst rows. rewrite collectRows_rows, Hweak, andb_false_r. done. }
  split; [done|]. intros chord.
  destruct (collectRows_candidates progression models cc) as [_ Hcand].
  fold rows in Hcand. rewrite Hcand, H3. cbn. rewrite elem_of_nil. tauto.
Qed.

(** C2.  For a progression of at least three chords whose trigram
    context has count 0 and whose bigram context has a count of at
    least 3, the base weights are adjusted to exactly 0.30, 0.48,
    0.22, which sum to one, in exact arithmetic and in binary64; the
    trigram table is not read, the trigram row is empty, the
    candidates are the keys of the bigram and unigram rows, and the
    score of a chord has no trigram term (the empty trigram row only
    makes the score of a chord that names a member of
    [Object.prototype] not a number). *)
Theorem C2_scenario_B (progression : list string) (md : Metadata) :
  (3 ≤ length progression)%nat →
  count_of (trigram_counts md) (context_key 3 progression) = 0 →
  3 ≤ count_of (bigram_counts md) (context_key 2 progression) →
  let cc := getContextCounts progression (Some md) in
  (adjustWeights (num:=Qc) DEFAULT_WEIGHTS cc =
     {| lambda3 := lit 30 100; lambda2 := lit 48 100;
        lambda1 := lit 22 100 |} ∧
   weight_sum (adjustWeights (num:=Qc) DEFAULT_WEIGHTS cc) = 1%Qc) ∧
  (adjustWeights (num:=float) DEFAULT_WEIGHTS cc =
     {| lambda3 := lit 30 100; lambda2 := lit 48 100;
        lambda1 := lit 22 100 |} ∧
   weight_sum (adjustWeights (num:=float) DEFAULT_WEIGHTS cc) = lit 1 1) ∧
  (∀ (num : Type) (N : Number num) (R : Realm num) (models : Models num)
     weights,
     let rows := (collectRows progression models cc).1 in
     ¬ consulted Tri (tableReads progression models weights (Some md)) ∧
     trigramProbs rows = Plain ∅ ∧
     ∀ chord, chord ∈ allNextChords rows ↔
       chord ∈ Object_keys (bigramProbs rows) ∨
       chord ∈ Object_keys (unigramProbs rows)) ∧
  (∀ (R : Realm Qc) (models : Models Qc) w chord,
     let rows := (collectRows progression models cc).1 in
     interpolated w rows chord =
       if inherited chord then None
       else
         p2 ← or_zero (row_get (bigramProbs rows) chord);
         p1 ← or_zero (row_get (unigramProbs rows) chord);
         Some (lambda2 w * p2 + lambda1 w * p1)%Qc).
Proof.
  intros Hlen Hc3 Hc2 cc.
  assert (Hl3 : (3 <=? length progression)%nat = true)
    by by apply Nat.leb_le.
  assert (Hl2 : (2 <=? length progression)%nat = true)
    by (apply Nat.leb_le; lia).
  assert (E3 : c_trigram cc = Some (Counted 0)).
  { subst cc. cbn [getContextCounts c_trigram]. rewrite Hl3.
    rewrite read_count_plain by (apply context_key_plain; lia).
    by rewrite Hc3. }
  assert (E2 : weak (c_bigram cc) = false).
  { subst cc. cbn [getContextCounts c_bigram]. rewrite Hl2.
    rewrite read_count_plain by (apply context_key_plain; lia).
    rewrite weak_strong. apply negb_false_iff, strong_Some, Hc2. }
  assert (Hweak : strong (c_trigram cc) = false) by by rewrite E3.
  split_and!.
  - unfold adjustWeights, backedOff. rewrite E3, E2. cbn [weak Z.ltb].
    change (0 <? BACKOFF_THRESHOLD) with true. cbv iota.
    rewrite normalizeWeights_pos by reflexivity.
    f_equal; apply Qc_is_canon; reflexivity.
  - by apply adjustWeights_sum.
  - unfold adjustWeights, backedOff. rewrite E3, E2. vm_compute.
    reflexivity.
  - apply adjustWeights_float_default_sum.
  - intros num N R models weights rows.
    destruct (collectRows_weak_trigram progression models cc Hweak)
      as [H3 Hcand].
    split_and!; [|done..].
    rewrite tableReads_metadata, Hc3, andb_false_r.
    rewrite !consulted_app.
    repeat case_match; rewrite ?consulted_cons, ?consulted_nil_iff;
      intuition congruence.
  - intros R models w chord rows.
    destruct (collectRows_weak_trigram progression models cc Hweak)
      as [H3 _].
    fold rows in H3. unfold interpolated. rewrite H3. cbn [row_get].
    unfold obj_read at 1. cbn [entries JSObject_empty empty obj_get].
    destruct (inherited chord); [done|]. cbn [or_zero mbind option_bind].
    destruct (or_zero (row_get (bigramProbs rows) chord)) as [p2|]; [|done].
    cbn [mbind option_bind].
    destruct (or_zero (row_get (unigramProbs rows) chord)) as [p1|]; [|done].
    cbn. f_equal. ring.
Qed.

Lemma C2_scenario_B_witness :
  let cc := getContextCounts progressionA (Some (metadataA 0)) in
  adjustWeights (num:=Qc) DEFAULT_WEIGHTS cc =
    {| lambda3 := lit 30 100; lambda2 := lit 48 100; lambda1 := lit 22 100 |} ∧
  adjustWeights (num:=float) DEFAULT_WEIGHTS cc =
    {| lambda3 := lit 30 100; lambda2 := lit 48 100; lambda1 := lit 22 100 |} ∧
  ¬ consulted Tri
      (tableReads (R:=bare_members) progressionA (modelsA (num:=float))
         DEFAULT_WEIGHTS (Some (metadataA 0))).
Proof.
  intros cc.
  assert (Hlen : (3 ≤ length progressionA)%nat) by (cbn; lia).
  assert (Hc3 : count_of (trigram_counts (metadataA 0))
                  (context_key 3 progressionA) = 0) by reflexivity.
  assert (Hc2 : 3 ≤ count_of (bigram_counts (metadataA 0))
                      (context_key 2 progressionA)) by (vm_compute; discriminate).
  pose proof (C2_scenario_B progressionA (metadataA 0) Hlen Hc3 Hc2) as H.
  split_and!.
  - apply H.
  - apply H.
  - apply (proj1 (proj2 (proj2 H)) float _ bare_members modelsA
             DEFAULT_WEIGHTS).
Defined.

(** ** Without metadata *)





Lemma inherited_proto (chord : string) :
  inherited chord = false → String.eqb chord "__proto__" = false.
Proof.
  intros Hc. apply String.eqb_neq. intros ->. by vm_compute in Hc.
Qed.

Section UnigramOnly.
Context {R : Realm Qc}.
Local Open Scope Qc_scope.

Lemma total_of_list_mass (o : Obj Qc) : total_of o = list_mass o.
Proof.
  induction o as [|e o IH]; [done|]. by rewrite total_of_cons, IH.
Qed.


Lemma total_of_scaled (a : Qc) (l : Obj Qc) :
  total_of ((λ kv, (kv.1, a * kv.2)) <$> l) = a * total_of l.
Proof.
  induction l as [|e l IH].
  - rewrite fmap_nil, total_of_nil. ring.
  - rewrite fmap_cons, !total_of_cons, IH. cbn [fst snd]. ring.
Qed.

Variables (w : InterpolationWeights Qc) (rows : @Rows Qc) (o : JSObject Qc).
Hypothesis Htri : trigramProbs rows = Plain ∅.
Hypothesis Hbi : bigramProbs rows = Plain ∅.
Hypothesis Huni : unigramProbs rows = Plain o.
Hypothesis Hpos : 0 < lambda1 w.





End UnigramOnly.


(** The page's effect is a run without metadata, or no run at all. *)
Lemma Home_effect_run {num} {N : Number num} {R : Realm num}
    (models : option (Models num)) (progression : list string) :
  Home_effect models progression = (mret [] : Traced (Obj num)) ∨
  ∃ m, models = Some m ∧ progression ≠ [] ∧
       Home_effect models progression =
         computeProbabilitiesT progression m DEFAULT_WEIGHTS None.
Proof.
  unfold Home_effect. destruct models as [m|]; [|by left].
  destruct progression as [|c p]; [by left|].
  right. exists m. split_and!; done.
Qed.

Lemma Home_effect_nonempty {num} {N : Number num} {R : Realm num}
    (m : Models num) (progression : list string) :
  progression ≠ [] →
  Home_effect (Some m) progression =
    computeProbabilitiesT progression m DEFAULT_WEIGHTS None.
Proof. intros Hne. by destruct progression. Qed.




(** * Further properties of [probability.ts] *)

(** ** The adjusted weights *)

Section AdjustedWeights.
Local Open Scope Qc_scope.
Implicit Types w : InterpolationWeights Qc.

Lemma Qcdiv_lt_mono (a b t : Qc) : 0 < t → a < b → a / t < b / t.
Proof.
  intros Ht Hab. unfold Qcdiv.
  apply Qcmult_lt_mono_pos_r; [by apply Qcinv_pos | done].
Qed.

(** With a positive total the adjusted weights are the backed-off
    weights over the total of the input. *)
Lemma adjustWeights_closed w cc :
  0 < weight_sum w →
  adjustWeights w cc =
    {| lambda3 := lambda3 (backedOff w cc) / weight_sum w;
       lambda2 := lambda2 (backedOff w cc) / weight_sum w;
       lambda1 := lambda1 (backedOff w cc) / weight_sum w |}.
Proof.
  intros Hpos. rewrite adjustWeights_backedOff.
  rewrite normalizeWeights_pos by (by rewrite backedOff_sum).
  by rewrite backedOff_sum.
Qed.

Lemma weight_sum_pos w :
  0 < lambda1 w → 0 < lambda2 w → 0 < lambda3 w → 0 < weight_sum w.
Proof.
  intros H1 H2 H3. unfold weight_sum. cbn [nadd Qc_Number].
  auto using Qcplus_pos_pos.
Qed.

Lemma backedOff_scale (c : Qc) w cc :
  backedOff (scaleWeights c w) cc = scaleWeights c (backedOff w cc).
Proof.
  unfold backedOff.
  destruct (weak (c_trigram cc)), (weak (c_bigram cc));
    unfold scaleWeights, reduceBigram, reduceTrigram;
    cbn -[Q2Qc Qcplus Qcminus Qcmult]; f_equal; ring.
Qed.

Lemma weight_sum_scale (c : Qc) w :
  weight_sum (scaleWeights c w) = c * weight_sum w.
Proof. unfold weight_sum, scaleWeights. cbn. ring. Qed.

(** The loop and the final division when every weight is multiplied
    by a positive factor. *)
Lemma interpolated_scale {R : Realm Qc} (c : Qc) w (rows : Rows)
    (chord : string) :
  interpolated (scaleWeights c w) rows chord =
    (λ s, c * s) <$> interpolated w rows chord.
Proof.
  unfold interpolated.
  destruct (or_zero (row_get (trigramProbs rows) chord)) as [p3|]; [|done].
  destruct (or_zero (row_get (bigramProbs rows) chord)) as [p2|]; [|done].
  destruct (or_zero (row_get (unigramProbs rows) chord)) as [p1|]; [|done].
  cbn. f_equal. ring.
Qed.

Lemma scored_scale {R : Realm Qc} (c : Qc) w (rows : Rows) (chord : string) :
  0 < c →
  scored (scaleWeights c w) rows chord =
    (λ e, (e.1, c * e.2)) <$> scored w rows chord.
Proof.
  intros Hc. unfold scored. rewrite interpolated_scale.
  destruct (interpolated w rows chord) as [s|]; [|done]. cbn [fmap option_fmap option_map].
  assert (Hgt : gt0 (c * s) = gt0 s).
  { destruct (gt0 s) eqn:Hs.
    - apply Qc_gt0_true. apply Qc_gt0_true in Hs. by apply Qcmult_pos_pos.
    - apply Qc_gt0_false. apply Qc_gt0_false in Hs. intros Hcs. apply Hs.
      apply (Qcmult_lt_mono_pos_l _ _ c); [done|].
      by replace (c * 0) with 0 by ring. }
  change (gt0 (c * s)%num) with (gt0 (c * s)). rewrite Hgt.
  by destruct (gt0 s && negb (String.eqb chord "__proto__")).
Qed.

Lemma obj_set_fmap {A} (f : A → A) (k : string) (v : A) (o : Obj A) :
  obj_set k (f v) ((λ e, (e.1, f e.2)) <$> o) =
    (λ e, (e.1, f e.2)) <$> obj_set k v o.
Proof.
  unfold obj_set. destruct (String.eqb k "__proto__"); [done|].
  rewrite (obj_get_fmap f). destruct (obj_get k o) as [v0|]; cbn.
  - clear v0. induction o as [|[k0 v0] o IH]; [done|]. cbn.
    case_decide; cbn; [done | by rewrite IH].
  - destruct (array_index k) as [n|]; [|by rewrite fmap_app].
    induction o as [|[k0 v0] o IH]; [done|]. cbn.
    destruct (array_index k0) as [n'|]; [destruct (n' <? n)%N|]; cbn;
      by rewrite ?IH.
Qed.

Lemma blend_scale {R : Realm Qc} (c : Qc) w (rows : Rows)
    (cands : list string) :
  0 < c →
  blend (scaleWeights c w) rows cands =
    (λ e, (e.1, c * e.2)) <$> blend w rows cands.
Proof.
  intros Hc. unfold blend.
  change (@nil (string * Qc))
    with ((λ e : string * Qc, (e.1, c * e.2)) <$> @nil (string * Qc)) at 1.
  generalize (@nil (string * Qc)) as acc.
  induction cands as [|k cands IH]; intros acc; [done|]. cbn [foldl].
  rewrite <- IH. f_equal. rewrite !blend_step_scored, scored_scale by done.
  destruct (scored w rows k) as [[k' s]|]; [|done]. cbn.
  apply (obj_set_fmap (λ v, c * v)).
Qed.

Lemma normalizeProbs_blend_scale {R : Realm Qc} (c : Qc) w (rows : Rows)
    (cands : list string) :
  0 < c →
  normalizeProbs (blend (scaleWeights c w) rows cands) =
    normalizeProbs (blend w rows cands).
Proof.
  intros Hc. rewrite blend_scale by done.
  pose proof (gt0_Forall _ (blend_positive w rows cands)) as Hpos.
  generalize dependent (blend w rows cands). intros l Hpos.
  destruct (decide (l = [])) as [->|Hne]; [reflexivity|].
  assert (Hpos' : Forall (λ e : string * Qc, 0 < e.2)
                    ((λ e, (e.1, c * e.2)) <$> l)).
  { apply Forall_fmap. eapply list.Forall_impl; [exact Hpos|].
    intros kv Hkv. cbn. by apply Qcmult_pos_pos. }
  destruct (normalizeProbs_positive l Hpos) as [HT ->]; [done|].
  destruct (normalizeProbs_positive _ Hpos') as [_ ->]; [by destruct l|].
  rewrite total_of_scaled, <- list_fmap_compose.
  apply list_fmap_ext. intros _ kv _. cbn. f_equal.
  pose proof (Qclt_not_eq _ _ HT) as HT0.
  pose proof (Qclt_not_eq _ _ Hc) as Hc0.
  field. split; intros E; [apply HT0 | apply Hc0]; by rewrite E.
Qed.

End AdjustedWeights.

Section AdjustedWeightsProperties.
Local Open Scope Qc_scope.
Implicit Types w : InterpolationWeights Qc.

(** X1.  In exact arithmetic, multiplying the three input weights by
    the same positive factor never changes the mapping that
    [computeProbabilities] returns.  It leaves the adjusted weights as
    they are when the total of the weights is positive, and multiplies
    them by the factor when it is not. *)
Theorem X1_weights_scale_invariant {R : Realm Qc} (c : Qc) w
    (cc : ContextCounts) (progression : list string) (models : Models Qc)
    (metadata : option Metadata) :
  0 < c →
  computeProbabilities progression models (scaleWeights c w) metadata =
    computeProbabilities progression models w metadata ∧
  (0 < weight_sum w →
     adjustWeights (scaleWeights c w) cc = adjustWeights w cc) ∧
  (¬ 0 < weight_sum w →
     adjustWeights (scaleWeights c w) cc =
       scaleWeights c (adjustWeights w cc)).
Proof.
  intros Hc.
  assert (Hadj : ∀ cc', 0 < weight_sum w →
            adjustWeights (scaleWeights c w) cc' = adjustWeights w cc').
  { intros cc' Hw. rewrite !adjustWeights_closed; [|done|].
    - rewrite backedOff_scale, weight_sum_scale.
      cbn [scaleWeights lambda3 lambda2 lambda1].
      pose proof (Qclt_not_eq _ _ Hc) as Hc0.
      pose proof (Qclt_not_eq _ _ Hw) as Hw0.
      f_equal; field; split; intros E;
        [apply Hw0|apply Hc0|apply Hw0|apply Hc0|apply Hw0|apply Hc0];
        by rewrite E.
    - rewrite weight_sum_scale. by apply Qcmult_pos_pos. }
  assert (Hadj' : ∀ cc', ¬ 0 < weight_sum w →
            adjustWeights (scaleWeights c w) cc' =
              scaleWeights c (adjustWeights w cc')).
  { intros cc' Hw. rewrite !adjustWeights_backedOff.
    rewrite !normalizeWeights_nonpos; [apply backedOff_scale|..].
    - by rewrite backedOff_sum.
    - rewrite backedOff_sum, weight_sum_scale. intros Hpos. apply Hw.
      apply (Qcmult_lt_mono_pos_l _ _ c); [done|].
      by replace (c * 0) with 0 by ring. }
  split_and!; [|apply Hadj|apply Hadj'].
  destruct (Qclt_le_dec 0 (weight_sum w)) as [Hw|Hw%Qcle_not_lt].
  - rewrite !computeProbabilities_blend. by rewrite Hadj.
  - rewrite !computeProbabilities_blend, Hadj' by done.
    apply normalizeProbs_blend_scale. exact Hc.
Qed.

Lemma X1_weights_scale_invariant_witness :
  computeProbabilities (R:=bare_members) progressionA modelsA
      (scaleWeights (lit 10 1) DEFAULT_WEIGHTS) (Some (metadataA 5)) =
    computeProbabilities (num:=Qc) (R:=bare_members) progressionA modelsA
      DEFAULT_WEIGHTS (Some (metadataA 5)).
Proof.
  apply (X1_weights_scale_invariant (R:=bare_members) (lit 10 1)
           DEFAULT_WEIGHTS no_counts progressionA modelsA
           (Some (metadataA 5))); reflexivity.
Defined.

(** X2.  Trigram backoff, for positive weights and a fixed bigram
    context: when the trigram context is weak the adjusted trigram
    weight is exactly half of what it is when the context is strong,
    and both the bigram and the unigram weight are strictly larger. *)
Theorem X2_trigram_backoff_shifts_weight w (u b weakT strongT : option Count) :
  0 < lambda1 w → 0 < lambda2 w → 0 < lambda3 w →
  weak weakT = true → weak strongT = false →
  let backed := adjustWeights w (counts_with u b weakT) in
  let full := adjustWeights w (counts_with u b strongT) in
  lambda3 backed = lambda3 full / 2 ∧
  lambda3 backed < lambda3 full ∧
  lambda2 full < lambda2 backed ∧
  lambda1 full < lambda1 backed.
Proof.
  intros H1 H2 H3 Hweak Hstrong backed full. subst backed full.
  pose proof (weight_sum_pos w H1 H2 H3) as Hsum.
  rewrite !adjustWeights_closed by done.
  cbn [lambda3 lambda2 lambda1]. unfold backedOff, counts_with.
  cbn [c_trigram c_bigram]. rewrite Hweak, Hstrong.
  split_and!.
  - apply Qclt_not_eq in Hsum.
    destruct (weak b); unfold reduceBigram, reduceTrigram;
      cbn -[Q2Qc Qcplus Qcminus Qcmult Qcdiv weight_sum];
      replace (Q2Qc (5 # 10)) with (/ 2)
        by (apply Qc_is_canon; reflexivity);
      field; repeat split;
      first [discriminate | intros E; apply Hsum; by rewrite E].
  - apply Qcdiv_lt_mono; [done|].
    destruct (weak b); unfold reduceBigram, reduceTrigram;
      cbn -[Q2Qc Qcplus Qcminus Qcmult Qclt]; qc_lra.
  - apply Qcdiv_lt_mono; [done|].
    destruct (weak b); unfold reduceBigram, reduceTrigram;
      cbn -[Q2Qc Qcplus Qcminus Qcmult Qclt]; qc_lra.
  - apply Qcdiv_lt_mono; [done|].
    destruct (weak b); unfold reduceBigram, reduceTrigram;
      cbn -[Q2Qc Qcplus Qcminus Qcmult Qclt]; qc_lra.
Qed.

Lemma X2_trigram_backoff_shifts_weight_witness :
  let backed :=
    adjustWeights (num:=Qc) DEFAULT_WEIGHTS
      (counts_with None (Some (Counted 4)) (Some (Counted 2))) in
  let full :=
    adjustWeights (num:=Qc) DEFAULT_WEIGHTS
      (counts_with None (Some (Counted 4)) (Some (Counted 3))) in
  lambda3 backed < lambda3 full ∧ lambda1 full < lambda1 backed.
Proof.
  intros backed full.
  pose proof (X2_trigram_backoff_shifts_weight DEFAULT_WEIGHTS None
                (Some (Counted 4)) (Some (Counted 2)) (Some (Counted 3))
                eq_refl eq_refl eq_refl eq_refl eq_refl)
    as H.
  split; apply H.
Defined.

(** X3.  Bigram backoff, for positive weights and a fixed trigram
    context: when the bigram context is weak the adjusted bigram
    weight is exactly half of what it is when the context is strong,
    the trigram weight is the same, and the unigram weight is strictly
    larger. *)
Theorem X3_bigram_backoff_shifts_weight w (u t weakB strongB : option Count) :
  0 < lambda1 w → 0 < lambda2 w → 0 < lambda3 w →
  weak weakB = true → weak strongB = false →
  let backed := adjustWeights w (counts_with u weakB t) in
  let full := adjustWeights w (counts_with u strongB t) in
  lambda2 backed = lambda2 full / 2 ∧
  lambda2 backed < lambda2 full ∧
  lambda3 backed = lambda3 full ∧
  lambda1 full < lambda1 backed.
Proof.
  intros H1 H2 H3 Hweak Hstrong backed full. subst backed full.
  pose proof (weight_sum_pos w H1 H2 H3) as Hsum.
  rewrite !adjustWeights_closed by done.
  cbn [lambda3 lambda2 lambda1]. unfold backedOff, counts_with.
  cbn [c_trigram c_bigram]. rewrite Hweak, Hstrong.
  split_and!.
  - apply Qclt_not_eq in Hsum.
    destruct (weak t); unfold reduceBigram, reduceTrigram;
      cbn -[Q2Qc Qcplus Qcminus Qcmult Qcdiv weight_sum];
      replace (Q2Qc (5 # 10)) with (/ 2)
        by (apply Qc_is_canon; reflexivity);
      field; repeat split;
      first [discriminate | intros E; apply Hsum; by rewrite E].
  - apply Qcdiv_lt_mono; [done|].
    destruct (weak t); unfold reduceBigram, reduceTrigram;
      cbn -[Q2Qc Qcplus Qcminus Qcmult Qclt]; qc_lra.
  - destruct (weak t); reflexivity.
  - apply Qcdiv_lt_mono; [done|].
    destruct (weak t); unfold reduceBigram, reduceTrigram;
      cbn -[Q2Qc Qcplus Qcminus Qcmult Qclt]; qc_lra.
Qed.

Lemma X3_bigram_backoff_shifts_weight_witness :
  let backed :=
    adjustWeights (num:=Qc) DEFAULT_WEIGHTS
      (counts_with None (Some (Counted 0)) (Some (Counted 7))) in
  let full :=
    adjustWeights (num:=Qc) DEFAULT_WEIGHTS
      (counts_with None (Some (Counted 3)) (Some (Counted 7))) in
  lambda2 backed < lambda2 full ∧ lambda1 full < lambda1 backed.
Proof.
  intros backed full.
  pose proof (X3_bigram_backoff_shifts_weight DEFAULT_WEIGHTS None
                (Some (Counted 7)) (Some (Counted 0)) (Some (Counted 3))
                eq_refl eq_refl eq_refl eq_refl eq_refl)
    as H.
  split; apply H.
Defined.

(** X4.  For positive input weights every adjusted weight lies
    strictly between 0 and 1, whatever the context counts. *)
Theorem X4_adjusted_weights_in_unit_interval w (cc : ContextCounts) :
  0 < lambda1 w → 0 < lambda2 w → 0 < lambda3 w →
  let a := adjustWeights w cc in
  (0 < lambda1 a ∧ lambda1 a < 1) ∧
  (0 < lambda2 a ∧ lambda2 a < 1) ∧
  (0 < lambda3 a ∧ lambda3 a < 1).
Proof.
  intros H1 H2 H3 a.
  pose proof (weight_sum_pos w H1 H2 H3) as Hsum.
  assert (Hpos : 0 < lambda1 a ∧ 0 < lambda2 a ∧ 0 < lambda3 a).
  { subst a. rewrite adjustWeights_closed by done.
    cbn [lambda3 lambda2 lambda1]. unfold backedOff.
    split_and!; (apply Qcdiv_pos; [|done]);
      destruct (weak (c_trigram cc)), (weak (c_bigram cc));
      unfold reduceBigram, reduceTrigram;
      cbn -[Q2Qc Qcplus Qcminus Qcmult Qclt]; qc_lra. }
  pose proof (adjustWeights_sum w cc Hsum) as Hone. fold a in Hone.
  unfold weight_sum in Hone. cbn [nadd Qc_Number] in Hone.
  destruct Hpos as (P1 & P2 & P3).
  assert (E1 : lambda1 a = 1 - lambda2 a - lambda3 a)
    by (rewrite <- Hone; ring).
  assert (E2 : lambda2 a = 1 - lambda1 a - lambda3 a)
    by (rewrite <- Hone; ring).
  assert (E3 : lambda3 a = 1 - lambda1 a - lambda2 a)
    by (rewrite <- Hone; ring).
  clear Hone. split_and!; try done.
  - rewrite E1. clear E1 E2 E3. qc_lra.
  - rewrite E2. clear E1 E2 E3. qc_lra.
  - rewrite E3. clear E1 E2 E3. qc_lra.
Qed.

Lemma X4_adjusted_weights_in_unit_interval_witness :
  let a := adjustWeights (num:=Qc) DEFAULT_WEIGHTS (counts_with None None None) in
  0 < lambda1 a ∧ lambda1 a < 1.
Proof.
  intros a.
  exact (proj1 (X4_adjusted_weights_in_unit_interval DEFAULT_WEIGHTS
                  (counts_with None None None) eq_refl eq_refl eq_refl)).
Defined.

End AdjustedWeightsProperties.

(** ** What the returned mapping depends on *)

Section Dependencies.
Context {num : Type} {N : Number num} {R : Realm num}.

Lemma obj_get_Some_key (o : Obj num) (k : string) (v : num) :
  obj_get k o = Some v → k ∈ o.*1.
Proof.
  intros Hget. destruct (decide (k ∈ o.*1)) as [|Hnin]; [done|].
  apply obj_get_None in Hnin. congruence.
Qed.

Lemma blend_key_candidate (w : InterpolationWeights num) (rows : @Rows num)
    (cands : list string) (chord : string) :
  chord ∈ (blend w rows cands).*1 → chord ∈ cands.
Proof.
  intros Hin. destruct (decide (chord ∈ cands)) as [|Hnin]; [done|].
  exfalso. revert Hin. apply obj_get_None. rewrite blend_get.
  by rewrite decide_False.
Qed.

(** X5.  For every arithmetic, a chord that has an entry in the
    returned mapping is a key of a row that the run read: the run read
    some table at some context, and the row of that table at that
    context holds the chord.  No chord is predicted that the consulted
    tables do not list as a continuation. *)
Theorem X5_predictions_come_from_rows_read (progression : list string)
    (models : Models num) (weights : InterpolationWeights num)
    (metadata : option Metadata) (chord : string) (v : num) :
  obj_get chord (computeProbabilities progression models weights metadata)
    = Some v →
  ∃ o context,
    (o, context) ∈ tableReads progression models weights metadata ∧
    chord ∈ Object_keys (getModelProbabilities (table o models) context).
Proof.
  intros Hget. apply obj_get_Some_key in Hget.
  rewrite computeProbabilities_blend, normalizeProbs_keys in Hget.
  apply blend_key_candidate in Hget.
  set (cc := getContextCounts progression metadata) in *.
  apply (collectRows_candidates progression models cc) in Hget.
  rewrite tableReads_collectRows, collectRows_reads. fold cc.
  rewrite collectRows_rows in Hget.
  cbn [trigramProbs bigramProbs unigramProbs] in Hget.
  destruct ((3 <=? length progression)%nat && strong (c_trigram cc));
    destruct ((2 <=? length progression)%nat && strong (c_bigram cc));
    destruct (1 <=? length progression)%nat;
    destruct Hget as [H3|[H2|H1]];
    try (by apply elem_of_nil in H3);
    try (by apply elem_of_nil in H2);
    try (by apply elem_of_nil in H1).
  all: first
    [ exists Tri, (context_key 3 progression); split; [|exact H3]
    | exists Bi, (context_key 2 progression); split; [|exact H2]
    | exists Uni, (last_chord progression); split; [|exact H1] ];
    cbn; rewrite ?elem_of_cons; tauto.
Qed.

(** The counts that [getContextCounts] gives are numbers where it
    gives any: such a context is weak exactly when it is not strong. *)
Lemma getContextCounts_weak (progression : list string)
    (metadata : option Metadata) :
  let cc := getContextCounts progression metadata in
  weak (c_trigram cc) = negb (strong (c_trigram cc)) ∧
  weak (c_bigram cc) = negb (strong (c_bigram cc)).
Proof.
  intros cc. subst cc. destruct metadata as [md|]; [|by split].
  cbn [getContextCounts c_trigram c_bigram]. split.
  - destruct (3 <=? length progression)%nat eqn:Hlen; [|done].
    apply Nat.leb_le in Hlen.
    rewrite read_count_plain by (apply context_key_plain; lia).
    apply weak_strong.
  - destruct (2 <=? length progression)%nat eqn:Hlen; [|done].
    apply Nat.leb_le in Hlen.
    rewrite read_count_plain by (apply context_key_plain; lia).
    apply weak_strong.
Qed.

Lemma computeProbabilitiesT_counts (progression : list string)
    (models : Models num) (weights : InterpolationWeights num)
    (metadata metadata' : option Metadata) :
  let cc := getContextCounts progression metadata in
  let cc' := getContextCounts progression metadata' in
  strong (c_trigram cc) = strong (c_trigram cc') →
  strong (c_bigram cc) = strong (c_bigram cc') →
  computeProbabilitiesT progression models weights metadata =
    computeProbabilitiesT progression models weights metadata'.
Proof.
  intros cc cc' H3 H2.
  destruct (getContextCounts_weak progression metadata) as [W3 W2].
  destruct (getContextCounts_weak progression metadata') as [W3' W2'].
  fold cc in W3, W2. fold cc' in W3', W2'.
  assert (Hw : adjustWeights weights cc = adjustWeights weights cc').
  { unfold adjustWeights, backedOff. by rewrite W3, W2, W3', W2', H3, H2. }
  assert (Hr : collectRows progression models cc =
               collectRows progression models cc').
  { unfold collectRows. by rewrite H3, H2. }
  unfold computeProbabilitiesT. fold cc cc'. cbv zeta.
  by rewrite Hw, Hr.
Qed.

(** X6.  For every arithmetic, the metadata acts on a run only through
    two bits, whether the trigram context is strong and whether the
    bigram context is strong: two metadata arguments that agree on
    them give the same mapping and the same table reads.  So the
    unigram counts, which [getContextCounts] looks up, never change a
    result, and a metadata object without count tables acts as no
    metadata at all. *)
Theorem X6_metadata_acts_through_two_bits :
  (∀ progression (models : Models num) weights metadata metadata',
     strong (c_trigram (getContextCounts progression metadata)) =
       strong (c_trigram (getContextCounts progression metadata')) →
     strong (c_bigram (getContextCounts progression metadata)) =
       strong (c_bigram (getContextCounts progression metadata')) →
     computeProbabilitiesT progression models weights metadata =
       computeProbabilitiesT progression models weights metadata') ∧
  (∀ progression (models : Models num) weights md u,
     computeProbabilitiesT progression models weights
       (Some (with_unigram_counts u md)) =
     computeProbabilitiesT progression models weights (Some md)) ∧
  (∀ progression (models : Models num) weights,
     computeProbabilitiesT progression models weights (Some bare_metadata) =
     computeProbabilitiesT progression models weights None).
Proof.
  split_and!.
  - intros progression models weights metadata metadata'.
    apply computeProbabilitiesT_counts.
  - intros progression models weights md u.
    by apply computeProbabilitiesT_counts.
  - intros progression models weights.
    apply computeProbabilitiesT_counts; cbn;
      by repeat case_match.
Qed.

Lemma last_chord_snoc (p : list string) (c : string) :
  last_chord (p ++ [c]) = c.
Proof.
  unfold last_chord. rewrite length_app. cbn [length].
  replace (length p + 1 - 1)%nat with (length p + 0)%nat by lia.
  by rewrite lookup_app_r, Nat.add_0_r, Nat.sub_diag by lia.
Qed.

(** A run without metadata on a non-empty progression is the run on
    its last chord alone. *)
Lemma computeProbabilitiesT_last_chord (progression : list string)
    (models : Models num) (weights : InterpolationWeights num) :
  progression ≠ [] →
  computeProbabilitiesT progression models weights None =
    computeProbabilitiesT [last_chord progression] models weights None.
Proof.
  intros Hne.
  assert (Hlen : (1 ≤ length progression)%nat)
    by (destruct progression; [done | cbn; lia]).
  assert (Hrows : collectRows progression models no_counts =
                  collectRows [last_chord progression] models no_counts).
  { unfold collectRows. cbn [no_counts c_trigram c_bigram strong].
    rewrite !andb_false_r.
    replace (1 <=? length progression)%nat with true
      by (symmetry; by apply Nat.leb_le).
    done. }
  unfold computeProbabilitiesT.
  change (getContextCounts progression None) with no_counts.
  change (getContextCounts [last_chord progression] None) with no_counts.
  cbv zeta. rewrite Hrows.
  replace (length progression =? 0)%nat with false; [done|].
  symmetry. apply Nat.eqb_neq. lia.
Qed.

(** X7.  For every arithmetic, a run without metadata only looks at
    the last chord of the progression: whatever comes before it, the
    mapping and the table reads are those of the progression made of
    that chord alone. *)
Theorem X7_no_metadata_last_chord_only (before : list string)
    (chord : string) (models : Models num)
    (weights : InterpolationWeights num) :
  computeProbabilitiesT (before ++ [chord]) models weights None =
    computeProbabilitiesT [chord] models weights None.
Proof.
  rewrite computeProbabilitiesT_last_chord, last_chord_snoc; [done|].
  intros E. apply (f_equal length) in E. rewrite length_app in E.
  cbn in E. lia.
Qed.

End Dependencies.

Lemma X5_predictions_come_from_rows_read_witness :
  ∃ o context,
    (o, context) ∈ tableReads (R:=bare_members) progressionA
                     (modelsA (num:=float)) DEFAULT_WEIGHTS
                     (Some (metadataA 5)) ∧
    "Dmin"%string ∈ Object_keys (getModelProbabilities (table o modelsA)
                                   context).
Proof.
  destruct (obj_get "Dmin"%string
              (computeProbabilities (R:=bare_members) progressionA
                 (modelsA (num:=float)) DEFAULT_WEIGHTS
                 (Some (metadataA 5)))) as [v|] eqn:Hget.
  - exact (X5_predictions_come_from_rows_read progressionA modelsA
             DEFAULT_WEIGHTS (Some (metadataA 5)) "Dmin" v Hget).
  - vm_compute in Hget. discriminate Hget.
Defined.

(** ** The returned probabilities, in closed form *)

Section ClosedForm.
Context {R : Realm Qc}.
Local Open Scope Qc_scope.

Lemma list_mass_perm (l l' : list (string * Qc)) :
  l ≡ₚ l' → list_mass l = list_mass l'.
Proof. intros Hp. rewrite <- !total_of_list_mass. by apply total_of_perm. Qed.

Lemma sum_over_ext (f g : string → Qc) (l : list string) :
  (∀ c, c ∈ l → f c = g c) → sum_over f l = sum_over g l.
Proof.
  unfold sum_over. induction l as [|c l IH]; intros Hfg; [done|].
  cbn [foldr]. rewrite (Hfg c) by (apply elem_of_cons; by left).
  rewrite IH; [done|]. intros c' Hc'. apply Hfg, elem_of_cons. by right.
Qed.

Lemma sum_over_linear (a3 a2 a1 : Qc) (f3 f2 f1 : string → Qc)
    (l : list string) :
  sum_over (λ c, a3 * f3 c + a2 * f2 c + a1 * f1 c) l =
    a3 * sum_over f3 l + a2 * sum_over f2 l + a1 * sum_over f1 l.
Proof.
  unfold sum_over. induction l as [|c l IH]; cbn [foldr]; [ring|].
  rewrite IH. ring.
Qed.

Lemma sum_over_app (f : string → Qc) (l l' : list string) :
  sum_over f (l ++ l') = sum_over f l + sum_over f l'.
Proof.
  unfold sum_over. induction l as [|c l IH]; cbn [foldr app]; [ring|].
  rewrite IH. ring.
Qed.

Lemma sum_over_perm (f : string → Qc) (l l' : list string) :
  l ≡ₚ l' → sum_over f l = sum_over f l'.
Proof.
  unfold sum_over.
  induction 1 as [|c l l' _ IH|c c' l|l l' l'' _ IH1 _ IH2]; cbn [foldr].
  - done.
  - by rewrite IH.
  - ring.
  - by rewrite IH1.
Qed.

Lemma sum_over_zero (f : string → Qc) (l : list string) :
  (∀ c, c ∈ l → f c = 0) → sum_over f l = 0.
Proof.
  intros Hl. rewrite (sum_over_ext f (λ _, 0) l Hl).
  unfold sum_over. induction l as [|c l IH]; cbn [foldr]; [done|].
  rewrite IH; [ring|]. intros c' Hc'. apply Hl, elem_of_cons. by right.
Qed.

Lemma sum_over_cons (f : string → Qc) (c : string) (l : list string) :
  sum_over f (c :: l) = f c + sum_over f l.
Proof. reflexivity. Qed.

(** Summing an object over its own keys gives the sum of its values. *)
Lemma sum_over_keys (o : Obj Qc) :
  NoDup o.*1 → sum_over (λ k, default 0 (obj_get k o)) o.*1 = list_mass o.
Proof.
  induction o as [|[k v] o IH]; [done|].
  intros [Hk Hnd]%list.NoDup_cons. rewrite fmap_cons, sum_over_cons.
  cbn [list_mass foldr obj_get fst snd].
  rewrite decide_True by done. cbn [default from_option id]. f_equal.
  fold (list_mass o). rewrite <- (IH Hnd). apply sum_over_ext. intros c Hc.
  rewrite decide_False; [done|]. by intros ->.
Qed.

(** Summing a row over a duplicate-free list that holds its keys gives
    the mass of the row. *)
Lemma sum_over_prob_of (l : list string) (row : JSObject Qc) :
  NoDup l → (∀ k, k ∈ (entries row).*1 → k ∈ l) →
  sum_over (prob_of row) l = row_mass row.
Proof.
  intros Hnd Hkeys.
  assert (Hsub : (entries row).*1 ⊆+ l)
    by (apply NoDup_submseteq; [apply JSObject_NoDup | done]).
  apply submseteq_Permutation in Hsub as [rest Hp].
  rewrite (sum_over_perm _ _ _ Hp), sum_over_app.
  unfold prob_of at 1. rewrite sum_over_keys by apply JSObject_NoDup.
  rewrite sum_over_zero; [unfold row_mass; ring|].
  intros c Hc. unfold prob_of.
  rewrite Hp in Hnd. apply list.NoDup_app in Hnd as (_ & Hdisj & _).
  assert (Hnone : obj_get c (entries row) = None).
  { apply obj_get_None. intros Hin. by apply (Hdisj c). }
  by rewrite Hnone.
Qed.

Lemma prob_of_nonneg (row : JSObject Qc) (chord : string) :
  nonneg_row row → 0 ≤ prob_of row chord.
Proof.
  intros Hrow. unfold prob_of.
  destruct (obj_get chord (entries row)) as [v|] eqn:Hv; cbn.
  - apply obj_get_Some_elem in Hv.
    by apply (proj1 (list.Forall_forall _ _) Hrow _ Hv).
  - apply Qcle_refl.
Qed.

Lemma prob_of_not_key (row : JSObject Qc) (chord : string) :
  chord ∉ (entries row).*1 → prob_of row chord = 0.
Proof. intros Hc%obj_get_None. unfold prob_of. by rewrite Hc. Qed.

Lemma plain_keys_elem (row : JSObject Qc) (chord : string) :
  plain_keys row → chord ∈ (entries row).*1 → inherited chord = false.
Proof.
  intros Hrow Hc. by apply (proj1 (list.Forall_forall _ _) Hrow _ Hc).
Qed.

Lemma Qcmult_nonneg (x y : Qc) : 0 ≤ x → 0 ≤ y → 0 ≤ x * y.
Proof.
  intros Hx Hy. replace 0 with (x * 0) by ring.
  by apply Qcmult_le_mono_nonneg_l.
Qed.

Variables (a : InterpolationWeights Qc) (rows : @Rows Qc).
Variables (o3 o2 o1 : JSObject Qc).
Hypothesis Htri : trigramProbs rows = Plain o3.
Hypothesis Hbi : bigramProbs rows = Plain o2.
Hypothesis Huni : unigramProbs rows = Plain o1.

(** Between plain rows, a chord that names no inherited member scores
    the interpolation formula. *)
Lemma interpolated_plain (chord : string) :
  inherited chord = false →
  interpolated a rows chord = Some (score_of a o3 o2 o1 chord).
Proof.
  intros Hc. unfold interpolated, score_of, prob_of.
  rewrite Htri, Hbi, Huni. cbn [row_get]. unfold obj_read. rewrite Hc.
  destruct (obj_get chord (entries o3)), (obj_get chord (entries o2)),
    (obj_get chord (entries o1)); rewrite ?or_zero_Qc; reflexivity.
Qed.

Lemma scored_plain (chord : string) :
  inherited chord = false →
  scored a rows chord =
    if gt0 (score_of a o3 o2 o1 chord)
    then Some (chord, score_of a o3 o2 o1 chord) else None.
Proof.
  intros Hc. unfold scored.
  by rewrite (interpolated_plain chord Hc), (inherited_proto chord Hc),
    andb_true_r.
Qed.

Hypothesis A1 : 0 ≤ lambda1 a.
Hypothesis A2 : 0 ≤ lambda2 a.
Hypothesis A3 : 0 ≤ lambda3 a.
Hypothesis N3 : nonneg_row o3.
Hypothesis N2 : nonneg_row o2.
Hypothesis N1 : nonneg_row o1.

Lemma score_nonneg (chord : string) : 0 ≤ score_of a o3 o2 o1 chord.
Proof.
  unfold score_of.
  repeat apply Qcplus_nonneg_nonneg;
    apply Qcmult_nonneg; auto using prob_of_nonneg.
Qed.

(** With scores that are not negative, dropping the scores that are
    not positive does not change the total. *)
Lemma total_of_omap_scored (l : list string) :
  Forall (λ c, inherited c = false) l →
  total_of (omap (scored a rows) l) = sum_over (score_of a o3 o2 o1) l.
Proof.
  induction 1 as [|c l Hc Hl IH]; [done|].
  cbn [omap list_omap sum_over foldr]. rewrite (scored_plain c Hc).
  pose proof (score_nonneg c) as Hnn.
  destruct (gt0 (score_of a o3 o2 o1 c)) eqn:Hgt.
  - rewrite total_of_cons. cbn [snd]. by rewrite IH.
  - apply Qc_gt0_false in Hgt.
    assert (E : score_of a o3 o2 o1 c = 0).
    { apply Qcle_antisym; [by apply Qcnot_lt_le | done]. }
    fold (sum_over (score_of a o3 o2 o1) l). rewrite IH, E. ring.
Qed.

Hypothesis P3 : plain_keys o3.
Hypothesis P2 : plain_keys o2.
Hypothesis P1 : plain_keys o1.
Hypothesis Hnd : NoDup (allNextChords rows).
Hypothesis Hcand : ∀ chord, chord ∈ allNextChords rows ↔
  chord ∈ (entries o3).*1 ∨ chord ∈ (entries o2).*1 ∨
  chord ∈ (entries o1).*1.

Lemma candidates_plain :
  Forall (λ c, inherited c = false) (allNextChords rows).
Proof.
  apply list.Forall_forall. intros c [H3|[H2|H1]]%Hcand;
    eauto using plain_keys_elem.
Qed.

(** The total of the scores that the final division divides by. *)
Lemma total_closed :
  total_of (blend a rows (allNextChords rows)) =
    lambda3 a * row_mass o3 + lambda2 a * row_mass o2 +
    lambda1 a * row_mass o1.
Proof.
  rewrite (total_of_perm _ _ (blend_omap a rows _ Hnd)).
  rewrite total_of_omap_scored by apply candidates_plain.
  unfold score_of.
  rewrite (sum_over_linear (lambda3 a) (lambda2 a) (lambda1 a)
             (prob_of o3) (prob_of o2) (prob_of o1)).
  rewrite !sum_over_prob_of; try done;
    intros k Hk; apply Hcand; tauto.
Qed.

(** The probability of a chord after the final division. *)
Lemma normalized_closed (chord : string) :
  obj_get chord (normalizeProbs (blend a rows (allNextChords rows))) =
    if decide (0 < score_of a o3 o2 o1 chord)
    then Some (score_of a o3 o2 o1 chord /
                 (lambda3 a * row_mass o3 + lambda2 a * row_mass o2 +
                  lambda1 a * row_mass o1))
    else None.
Proof.
  rewrite normalizeProbs_get by (apply gt0_Forall, blend_positive).
  rewrite total_closed, blend_get.
  destruct (decide (chord ∈ allNextChords rows)) as [Hin|Hnin].
  - rewrite scored_plain
      by (by apply (proj1 (list.Forall_forall _ _) candidates_plain)).
    cbn [gt0 Qc_Number]. destruct (Qc_gt0 (score_of a o3 o2 o1 chord)) eqn:Hgt.
    + apply Qc_gt0_true in Hgt. by rewrite decide_True.
    + apply Qc_gt0_false in Hgt. by rewrite decide_False.
  - rewrite decide_False; [done|].
    assert (E : score_of a o3 o2 o1 chord = 0).
    { rewrite Hcand in Hnin. unfold score_of.
      rewrite !prob_of_not_key by tauto. ring. }
    rewrite E. intros H0. by apply Qclt_not_eq in H0.
Qed.

End ClosedForm.

Section ClosedFormProperties.
Local Open Scope Qc_scope.

Lemma getModelProbabilities_nonneg (model : NGramModel Qc) (context : string)
    (o : JSObject Qc) :
  nonneg_model model → getModelProbabilities model context = Plain o →
  nonneg_row o.
Proof.
  intros Hm. unfold getModelProbabilities.
  destruct (model !! context) as [row|] eqn:Hrow.
  - intros [= <-]. by apply (Hm context row).
  - destruct (inherited context); [done|]. intros [= <-]. constructor.
Qed.

(** The rows that a run reads from tables without negative entries
    have no negative entries. *)
Lemma collectRows_nonneg (progression : list string) (models : Models Qc)
    (cc : ContextCounts) (o : JSObject Qc) :
  nonneg_models models →
  let rows := (collectRows progression models cc).1 in
  trigramProbs rows = Plain o ∨ bigramProbs rows = Plain o ∨
  unigramProbs rows = Plain o →
  nonneg_row o.
Proof.
  intros (M3 & M2 & M1) rows. subst rows. rewrite collectRows_rows.
  cbn [trigramProbs bigramProbs unigramProbs].
  intros [H|[H|H]]; revert H; case_match;
    eauto using getModelProbabilities_nonneg; intros [= <-]; constructor.
Qed.

Lemma adjustWeights_nonneg (w : InterpolationWeights Qc)
    (cc : ContextCounts) :
  0 ≤ lambda1 w → 0 ≤ lambda2 w → 0 ≤ lambda3 w → 0 < weight_sum w →
  let a := adjustWeights w cc in
  0 ≤ lambda1 a ∧ 0 ≤ lambda2 a ∧ 0 ≤ lambda3 a.
Proof.
  intros H1 H2 H3 Hsum a. subst a. rewrite adjustWeights_closed by done.
  cbn [lambda3 lambda2 lambda1]. unfold backedOff.
  assert (Hdiv : ∀ x, 0 ≤ x → 0 ≤ x / weight_sum w).
  { intros x Hx. apply Qcmult_nonneg; [done|].
    by apply Qclt_le_weak, Qcinv_pos. }
  split_and!; apply Hdiv;
    destruct (weak (c_trigram cc)), (weak (c_bigram cc));
    unfold reduceBigram, reduceTrigram;
    cbn -[Q2Qc Qcplus Qcminus Qcmult Qcle]; clear Hdiv Hsum; qc_lra.
Qed.

(** The returned probability of a chord, when the adjusted weights and
    the rows read are not negative and the rows are plain objects whose
    keys name no inherited member. *)
Lemma result_closed {R : Realm Qc}
    (progression : list string) (models : Models Qc)
    (weights : InterpolationWeights Qc) (metadata : option Metadata)
    (o3 o2 o1 : JSObject Qc) (chord : string) :
  let cc := getContextCounts progression metadata in
  let rows := (collectRows progression models cc).1 in
  let a := adjustWeights weights cc in
  0 ≤ lambda1 a → 0 ≤ lambda2 a → 0 ≤ lambda3 a →
  trigramProbs rows = Plain o3 → bigramProbs rows = Plain o2 →
  unigramProbs rows = Plain o1 →
  nonneg_row o3 → nonneg_row o2 → nonneg_row o1 →
  plain_keys o3 → plain_keys o2 → plain_keys o1 →
  let score := score_of a o3 o2 o1 chord in
  obj_get chord (computeProbabilities progression models weights metadata) =
    if decide (0 < score)
    then Some (score /
                 (lambda3 a * row_mass o3 + lambda2 a * row_mass o2 +
                  lambda1 a * row_mass o1))
    else None.
Proof.
  intros cc rows a A1 A2 A3 E3 E2 E1 N3 N2 N1 P3 P2 P1 score.
  rewrite computeProbabilities_blend. fold cc rows a.
  destruct (collectRows_candidates progression models cc) as [Hnd Hcand].
  fold rows in Hnd, Hcand.
  apply (normalized_closed a rows o3 o2 o1); try done.
  intros c. rewrite Hcand, E3, E2, E1. done.
Qed.

(** X8.  In exact arithmetic, for weights that are not negative and
    not all zero, tables without negative entries, and a run whose
    three rows are plain objects [o3], [o2], [o1] with no key that
    names a member of [Object.prototype]: the returned probability of
    a chord is its blended score divided by the adjusted weights
    applied to the sums of the rows; a chord has an entry exactly when
    its score is positive. *)
Theorem X8_probability_closed_form {R : Realm Qc}
    (progression : list string)
    (models : Models Qc) (weights : InterpolationWeights Qc)
    (metadata : option Metadata) (o3 o2 o1 : JSObject Qc) (chord : string) :
  0 ≤ lambda1 weights → 0 ≤ lambda2 weights → 0 ≤ lambda3 weights →
  0 < weight_sum weights → nonneg_models models →
  let cc := getContextCounts progression metadata in
  let rows := (collectRows progression models cc).1 in
  let a := adjustWeights weights cc in
  trigramProbs rows = Plain o3 → bigramProbs rows = Plain o2 →
  unigramProbs rows = Plain o1 →
  plain_keys o3 → plain_keys o2 → plain_keys o1 →
  let score := score_of a o3 o2 o1 chord in
  obj_get chord (computeProbabilities progression models weights metadata) =
    if decide (0 < score)
    then Some (score /
                 (lambda3 a * row_mass o3 + lambda2 a * row_mass o2 +
                  lambda1 a * row_mass o1))
    else None.
Proof.
  intros H1 H2 H3 Hsum Hmodels cc rows a E3 E2 E1 P3 P2 P1 score.
  destruct (adjustWeights_nonneg weights cc H1 H2 H3 Hsum) as (A1 & A2 & A3).
  pose proof (collectRows_nonneg progression models cc) as Hnn.
  cbv zeta in Hnn. fold rows in Hnn.
  apply result_closed; try done; apply Hnn; auto.
Qed.

Lemma nonneg_row_singleton_model (ctx : string) (row : JSObject Qc) :
  nonneg_row row → nonneg_model {[ ctx := row ]}.
Proof.
  intros Hrow k r Hk. apply lookup_singleton_Some in Hk as [_ <-]. done.
Qed.

Lemma nonneg_models_A : nonneg_models (modelsA (num:=Qc)).
Proof.
  split_and!; apply nonneg_row_singleton_model;
    unfold nonneg_row; cbn [entries trigram_rowA bigram_rowA unigram_rowA];
    repeat (apply list.Forall_cons; split; [discriminate|]);
    apply Forall_nil_2.
Qed.

Lemma X8_probability_closed_form_witness :
  is_Some (obj_get "F"%string
             (computeProbabilities (num:=Qc) (R:=bare_members) progressionA
                modelsA DEFAULT_WEIGHTS (Some (metadataA 5)))).
Proof.
  pose proof (X8_probability_closed_form (R:=bare_members) progressionA
                modelsA DEFAULT_WEIGHTS (Some (metadataA 5))
                trigram_rowA bigram_rowA unigram_rowA "F") as H.
  cbv zeta in H. rewrite H.
  - rewrite decide_True; [eauto | reflexivity].
  - discriminate.
  - discriminate.
  - discriminate.
  - reflexivity.
  - exact nonneg_models_A.
  - reflexivity.
  - reflexivity.
  - reflexivity.
  - by repeat constructor.
  - by repeat constructor.
  - by repeat constructor.
Defined.

Lemma adjustWeights_strong_id (w : InterpolationWeights Qc)
    (cc : ContextCounts) :
  strong (c_trigram cc) = true → strong (c_bigram cc) = true →
  weight_sum w = 1 → adjustWeights w cc = w.
Proof.
  intros H3 H2 Hsum.
  rewrite adjustWeights_closed by (by rewrite Hsum).
  unfold backedOff.
  assert (W3 : weak (c_trigram cc) = false)
    by (destruct (c_trigram cc) as [[n|]|]; try done;
        rewrite weak_strong, H3; done).
  assert (W2 : weak (c_bigram cc) = false)
    by (destruct (c_bigram cc) as [[n|]|]; try done;
        rewrite weak_strong, H2; done).
  rewrite W3, W2, Hsum.
  destruct w as [l3 l2 l1]. cbn. f_equal; field; discriminate.
Qed.

(** X9.  In exact arithmetic the blend is the interpolation formula
    itself when nothing backs off: for a progression of at least three
    chords whose trigram and bigram contexts are strong, rows that are
    probability distributions with no key that names a member of
    [Object.prototype], and weights that are not negative and sum to
    one, the returned probability of a chord is
    [lambda3 * P3 + lambda2 * P2 + lambda1 * P1] with the input
    weights, and the final division changes nothing. *)
Theorem X9_interpolation_formula_exact {R : Realm Qc}
    (progression : list string)
    (models : Models Qc) (weights : InterpolationWeights Qc)
    (md : Metadata) (r3 r2 r1 : JSObject Qc) (chord : string) :
  (3 ≤ length progression)%nat →
  (3 ≤ count_of (trigram_counts md) (context_key 3 progression))%Z →
  (3 ≤ count_of (bigram_counts md) (context_key 2 progression))%Z →
  trigram models !! context_key 3 progression = Some r3 →
  bigram models !! context_key 2 progression = Some r2 →
  unigram models !! last_chord progression = Some r1 →
  (nonneg_row r3 ∧ plain_keys r3 ∧ row_mass r3 = 1) →
  (nonneg_row r2 ∧ plain_keys r2 ∧ row_mass r2 = 1) →
  (nonneg_row r1 ∧ plain_keys r1 ∧ row_mass r1 = 1) →
  0 ≤ lambda1 weights → 0 ≤ lambda2 weights → 0 ≤ lambda3 weights →
  weight_sum weights = 1 →
  let score :=
    lambda3 weights * prob_of r3 chord + lambda2 weights * prob_of r2 chord +
    lambda1 weights * prob_of r1 chord in
  obj_get chord
    (computeProbabilities progression models weights (Some md)) =
    if decide (0 < score) then Some score else None.
Proof.
  intros Hlen Hc3 Hc2 E3 E2 E1 (N3 & P3 & M3) (N2 & P2 & M2) (N1 & P1 & M1)
    H1 H2 H3 Hsum score.
  set (cc := getContextCounts progression (Some md)).
  assert (L3 : (3 <=? length progression)%nat = true) by by apply Nat.leb_le.
  assert (L2 : (2 <=? length progression)%nat = true)
    by (apply Nat.leb_le; lia).
  assert (L1 : (1 <=? length progression)%nat = true)
    by (apply Nat.leb_le; lia).
  assert (S3 : strong (c_trigram cc) = true).
  { pose proof (getContextCounts_trigram progression md) as G.
    rewrite L3 in G. cbn [andb] in G. subst cc. rewrite G.
    by apply Z.leb_le. }
  assert (S2 : strong (c_bigram cc) = true).
  { pose proof (getContextCounts_bigram progression md) as G.
    rewrite L2 in G. cbn [andb] in G. subst cc. rewrite G.
    by apply Z.leb_le. }
  assert (Hrows : (collectRows progression models cc).1 =
            {| trigramProbs := Plain r3; bigramProbs := Plain r2;
               unigramProbs := Plain r1;
               allNextChords :=
                 add_keys (add_keys (add_keys [] (Plain r3)) (Plain r2))
                   (Plain r1) |}).
  { rewrite collectRows_rows, L3, L2, L1, S3, S2. cbn [andb].
    unfold getModelProbabilities. by rewrite E3, E2, E1. }
  pose proof (adjustWeights_strong_id weights cc S3 S2 Hsum) as Hadj.
  rewrite (result_closed progression models weights (Some md) r3 r2 r1 chord);
    fold cc; rewrite ?Hadj, ?Hrows; cbn [trigramProbs bigramProbs unigramProbs];
    try done.
  unfold score_of. fold score. rewrite M3, M2, M1.
  unfold weight_sum in Hsum. cbn [nadd Qc_Number] in Hsum.
  replace (lambda3 weights * 1 + lambda2 weights * 1 + lambda1 weights * 1)
    with (lambda1 weights + lambda2 weights + lambda3 weights) by ring.
  rewrite Hsum.
  case_decide; [|done]. f_equal. field; discriminate.
Qed.

Lemma X9_interpolation_formula_exact_witness :
  this <$> obj_get "F"%string
    (computeProbabilities (R:=bare_members) progressionA modelsD
       DEFAULT_WEIGHTS (Some (metadataA 5))) = Some (427 # 1000)%Q.
Proof.
  rewrite (X9_interpolation_formula_exact (R:=bare_members) progressionA
             modelsD DEFAULT_WEIGHTS (metadataA 5)
             trigram_rowD bigram_rowA unigram_rowA "F").
  - reflexivity.
  - cbn. lia.
  - vm_compute. discriminate.
  - vm_compute. discriminate.
  - reflexivity.
  - reflexivity.
  - reflexivity.
  - split_and!; [by repeat constructor..|]. apply Qc_is_canon. reflexivity.
  - split_and!; [by repeat constructor..|]. apply Qc_is_canon. reflexivity.
  - split_and!; [by repeat constructor..|]. apply Qc_is_canon. reflexivity.
  - discriminate.
  - discriminate.
  - discriminate.
  - apply Qc_is_canon. reflexivity.
Defined.

Lemma elem_le_total (o : Obj Qc) (e : string * Qc) :
  Forall (λ e, 0 < e.2) o → e ∈ o → e.2 ≤ total_of o.
Proof.
  induction 1 as [|e' o He' Ho IH]; intros Hin.
  - by apply elem_of_nil in Hin.
  - rewrite total_of_cons. apply elem_of_cons in Hin as [->|Hin].
    + rewrite <- (Qcplus_0_r e'.2) at 1.
      apply Qcplus_le_mono_l. by apply total_of_nonneg.
    + rewrite <- (Qcplus_0_l e.2).
      apply Qcplus_le_compat; [by apply Qclt_le_weak | by apply IH].
Qed.

(** X10.  In exact arithmetic and for every input, each probability
    in the returned mapping is positive and at most one. *)
Theorem X10_probabilities_in_unit_interval {R : Realm Qc}
    (progression : list string)
    (models : Models Qc) (weights : InterpolationWeights Qc)
    (metadata : option Metadata) :
  Forall (λ e, 0 < e.2 ∧ e.2 ≤ 1)
    (computeProbabilities progression models weights metadata).
Proof.
  rewrite computeProbabilities_blend.
  set (o := blend _ _ _).
  assert (Hpos : Forall (λ e : string * Qc, 0 < e.2) o)
    by apply gt0_Forall, blend_positive.
  destruct (normalizeProbs_distribution o Hpos) as [->|[Hall Hone]];
    [constructor|].
  apply list.Forall_forall. intros e He. split.
  - by apply (proj1 (list.Forall_forall _ _) Hall).
  - rewrite <- Hone. by apply elem_le_total.
Qed.

End ClosedFormProperties.

(** * The page handlers *)

Lemma filter_index_past {A} (l : list A) (a b : nat) :
  (a < b)%nat → filter_index (λ i, negb (i =? a)%nat) b l = l.
Proof.
  revert b. induction l as [|x l IH]; intros b Hab; cbn; [done|].
  replace (b =? a)%nat with false by (symmetry; apply Nat.eqb_neq; lia).
  cbn. f_equal. apply IH. lia.
Qed.

Lemma filter_index_remove {A} (l : list A) (k j : nat) :
  filter_index (λ i, negb (i =? j + k)%nat) j l = take k l ++ drop (S k) l.
Proof.
  revert k j. induction l as [|x l IH]; intros k j.
  - by destruct k.
  - destruct k as [|k]; cbn [filter_index take drop app].
    + rewrite Nat.add_0_r, Nat.eqb_refl. cbn [negb].
      rewrite drop_0. apply filter_index_past. lia.
    + replace (j =? j + S k)%nat with false
        by (symmetry; apply Nat.eqb_neq; lia).
      cbn [negb]. f_equal. rewrite <- (IH k (S j)).
      by replace (S j + k)%nat with (j + S k)%nat by lia.
Qed.

Lemma handleRemoveChord_take_drop (progression : list string) (index : nat) :
  handleRemoveChord progression index =
    take index progression ++ drop (S index) progression.
Proof. unfold handleRemoveChord. apply (filter_index_remove progression index 0). Qed.

(** X11.  Removing a chord: an index inside the progression removes
    exactly that chord, the others keep their order and the length
    drops by one; an index outside leaves the progression as it is;
    and removing at the last index what a click has just added gives
    the progression back. *)
Theorem X11_remove_chord (progression : list string) (index : nat) :
  ((index < length progression)%nat →
     handleRemoveChord progression index =
       take index progression ++ drop (S index) progression ∧
     length (handleRemoveChord progression index) =
       (length progression - 1)%nat ∧
     ∀ i, handleRemoveChord progression index !! i =
          progression !! (if (i <? index)%nat then i else S i)) ∧
  ((length progression ≤ index)%nat →
     handleRemoveChord progression index = progression) ∧
  (∀ chord,
     handleRemoveChord (handleChordClick progression chord)
       (length progression) = progression).
Proof.
  split_and!.
  - intros Hlt. rewrite handleRemoveChord_take_drop. split_and!; [done|..].
    + rewrite length_app, length_take, length_drop. lia.
    + intros i. destruct (i <? index)%nat eqn:Hi.
      * apply Nat.ltb_lt in Hi.
        rewrite lookup_app_l by (rewrite length_take; lia).
        by apply lookup_take_lt.
      * apply Nat.ltb_ge in Hi.
        rewrite lookup_app_r by (rewrite length_take; lia).
        rewrite length_take, lookup_drop. f_equal. lia.
  - intros Hge. rewrite handleRemoveChord_take_drop.
    rewrite take_ge, drop_ge by lia. apply app_nil_r.
  - intros chord. rewrite handleRemoveChord_take_drop.
    unfold handleChordClick. rewrite take_app_length.
    rewrite drop_ge by (rewrite length_app; cbn; lia). apply app_nil_r.
Qed.

Lemma last_chord_remove (progression : list string) (index : nat) :
  (S index < length progression)%nat →
  last_chord (handleRemoveChord progression index) = last_chord progression.
Proof.
  intros Hlt. unfold last_chord. rewrite handleRemoveChord_take_drop.
  rewrite length_app, length_take, length_drop.
  rewrite lookup_app_r by (rewrite length_take; lia).
  rewrite length_take, lookup_drop. do 2 f_equal. lia.
Qed.

(** X12.  What the page shows, for every arithmetic.  After a click
    the predictions are those of the clicked chord alone, whatever the
    progression held before; removing any chord but the last leaves
    the predictions as they are; and clearing the progression empties
    them. *)
Theorem X12_page_predictions_follow_last_chord {num} {N : Number num}
    {R : Realm num}
    (models : Models num) (progression : list string) :
  (∀ chord,
     Home_effect (Some models) (handleChordClick progression chord) =
     Home_effect (Some models) [chord]) ∧
  (∀ index, (S index < length progression)%nat →
     Home_effect (Some models) (handleRemoveChord progression index) =
     Home_effect (Some models) progression) ∧
  Home_nextChordProbs (Some models) handleClear = [].
Proof.
  split_and!.
  - intros chord. unfold handleChordClick.
    rewrite !Home_effect_nonempty; [|done|].
    + rewrite computeProbabilitiesT_last_chord, last_chord_snoc; [done|].
      intros E. apply (f_equal length) in E. rewrite length_app in E.
      cbn in E. lia.
    + intros E. apply (f_equal length) in E. rewrite length_app in E.
      cbn in E. lia.
  - intros index Hlt.
    assert (Hne : progression ≠ []) by (intros ->; cbn in Hlt; lia).
    assert (Hne' : handleRemoveChord progression index ≠ []).
    { intros E. apply (f_equal length) in E.
      rewrite handleRemoveChord_take_drop, length_app, length_take,
        length_drop in E. cbn in E. lia. }
    rewrite !Home_effect_nonempty by done.
    rewrite (computeProbabilitiesT_last_chord progression) by done.
    rewrite (computeProbabilitiesT_last_chord (handleRemoveChord _ _))
      by done.
    by rewrite last_chord_remove.
  - reflexivity.
Qed.

(** X13.  Saved progressions.  Saving an empty progression changes
    nothing; saving another puts it first, with its chords, and keeps
    the saved ones behind it.  Removing an identifier removes every
    entry that carries it and keeps the others in their order; removing
    the identifier just saved gives the list back when no other entry
    carries that identifier. *)
Theorem X13_saved_progressions (newId : string) (now : Z)
    (progression : list string) (saved : list SavedProgression) :
  handleSaveProgression newId now [] saved = saved ∧
  (progression ≠ [] →
     ∃ entry, handleSaveProgression newId now progression saved
                = entry :: saved ∧
              sp_id entry = newId ∧ sp_chords entry = progression) ∧
  (∀ id p, p ∈ handleRemoveSavedProgression id saved ↔
           p ∈ saved ∧ sp_id p ≠ id) ∧
  (∀ id, handleRemoveSavedProgression id saved `sublist_of` saved) ∧
  (Forall (λ p, sp_id p ≠ newId) saved →
     handleRemoveSavedProgression newId
       (handleSaveProgression newId now progression saved) = saved).
Proof.
  split_and!.
  - reflexivity.
  - intros Hne. unfold handleSaveProgression.
    destruct progression; [done|]. cbn. eauto.
  - intros id p. unfold handleRemoveSavedProgression.
    rewrite list_elem_of_filter. tauto.
  - intros id. apply sublist_filter.
  - intros Hfresh. unfold handleSaveProgression, handleRemoveSavedProgression.
    assert (Hsaved : filter (λ p, sp_id p ≠ newId) saved = saved).
    { induction Hfresh as [|p l Hp Hl IH]; [done|].
      rewrite filter_cons_True by done. by rewrite IH. }
    destruct (length progression =? 0)%nat; [done|].
    rewrite filter_cons_False by (cbn; tauto). done.
Qed.

(** * Chord names *)

(** [trim] removes the white space of Unicode: a no-break space
    before a name, a line separator and a byte order mark after it. *)
Example trim_unicode_space :
  let nbsp := String (ascii_of_N 194) (String (ascii_of_N 160) EmptyString) in
  let ls :=
    String (ascii_of_N 226)
      (String (ascii_of_N 128) (String (ascii_of_N 168) EmptyString)) in
  let bom :=
    String (ascii_of_N 239)
      (String (ascii_of_N 187) (String (ascii_of_N 191) EmptyString)) in
  trim (String.append nbsp (String.append "Cmaj7 " (String.append ls bom)))
    = "Cmaj7"%string ∧
  chordToMidiNotes (String.append nbsp "C") = [60; 64; 67].
Proof. intros nbsp ls bom. split; reflexivity. Qed.

(** A byte of ASCII that is no white space starts no white-space
    character, so that [trim] stops at it from both ends. *)
Lemma plain_byte (c : ascii) :
  (N_of_ascii c <? 128)%N = true → is_space c = false →
  (∀ t, is_space_char (String c t) = false) ∧
  (∀ s, trimStart (String c s) = String c s).
Proof.
  destruct c as [[] [] [] [] [] [] [] []]; intros H1 H2;
    vm_compute in H1, H2; try discriminate; clear H1 H2;
    (split; [intros [|c2 [|c3 [|c4 t]]] | intros [|c2 [|c3 s]]]);
    reflexivity.
Qed.

Lemma A_to_G_facts (c : ascii) :
  in_range "A" "G" c = true →
  (N_of_ascii c <? 128)%N = true ∧ is_space c = false ∧ to_upper c = c ∧
  is_underscore c = false.
Proof.
  destruct c as [[] [] [] [] [] [] [] []]; try discriminate; by vm_compute.
Qed.

Lemma trimEnd_head (c : ascii) (s : string) :
  trimEnd (String c s) = EmptyString ∨
  trimEnd (String c s) = String c (trimEnd s).
Proof.
  cbn [trimEnd]. destruct (is_space_char (String c (trimEnd s))); auto.
Qed.

Lemma trimEnd_cons (c : ascii) (s : string) :
  (N_of_ascii c <? 128)%N = true → is_space c = false →
  trimEnd (String c s) = String c (trimEnd s).
Proof.
  intros H1 H2. cbn [trimEnd].
  by rewrite (proj1 (plain_byte c H1 H2)).
Qed.

Lemma trim_cons (c : ascii) (s : string) :
  (N_of_ascii c <? 128)%N = true → is_space c = false →
  trim (String c s) = String c (trimEnd s).
Proof.
  intros H1 H2. unfold trim.
  by rewrite (proj2 (plain_byte c H1 H2)), trimEnd_cons.
Qed.

(** X14.  [formatChordDisplay] rewrites an [s] that follows a first
    letter from [A] to [G] into [#], unless [us] comes after it, and
    changes nothing else: a name it changes has that form and only its
    second character is replaced, the length is kept, a name whose
    root is followed by [sus] is returned as it is, and formatting
    twice is formatting once. *)
Theorem X14_formatChordDisplay_idempotent (chord : string) :
  (∀ c rest, in_range "A" "G" c = true → String.prefix "us" rest = false →
             formatChordDisplay (String c (String "s" rest))
             = String c (String "#" rest)) ∧
  (formatChordDisplay chord ≠ chord →
     ∃ c rest, in_range "A" "G" c = true ∧ String.prefix "us" rest = false ∧
               chord = String c (String "s" rest) ∧
               formatChordDisplay chord = String c (String "#" rest)) ∧
  formatChordDisplay (formatChordDisplay chord) = formatChordDisplay chord ∧
  String.length (formatChordDisplay chord) = String.length chord ∧
  (∀ c rest, formatChordDisplay (String c (String.append "sus" rest))
             = String c (String.append "sus" rest)) ∧
  (∀ i, i ≠ 1%nat →
        String.get i (formatChordDisplay chord) = String.get i chord).
Proof.
  split_and!.
  - intros c rest Hc Hus. cbn [formatChordDisplay].
    by rewrite Hc, Hus.
  - destruct chord as [|c [|s rest]]; try done. cbn [formatChordDisplay].
    destruct (in_range "A" "G" c) eqn:Hc; [|done].
    destruct (Ascii.eqb s "s") eqn:Hs; [|done].
    destruct (String.prefix "us" rest) eqn:Hus; [done|]. cbn [andb negb].
    apply Ascii.eqb_eq in Hs as ->. intros _. by exists c, rest.
  - destruct chord as [|c [|s rest]]; try reflexivity. cbn.
    destruct (in_range "A" "G" c && Ascii.eqb s "s" &&
              negb (String.prefix "us" rest)) eqn:Hm; cbn; [|by rewrite Hm].
    by rewrite andb_false_r.
  - destruct chord as [|c [|s rest]]; try reflexivity. cbn.
    by destruct (in_range "A" "G" c && Ascii.eqb s "s" &&
                 negb (String.prefix "us" rest)).
  - intros c rest.
    change (String.append "sus" rest)
      with (String "s" (String "u" (String "s" rest))).
    destruct rest; cbn; by rewrite andb_false_r.
  - intros i Hi. destruct chord as [|c [|s rest]]; try reflexivity. cbn.
    destruct (in_range "A" "G" c && Ascii.eqb s "s" &&
              negb (String.prefix "us" rest)); [|done].
    destruct i as [|[|i]]; done.
Qed.

Lemma prefix_empty (s : string) : String.prefix EmptyString s = true.
Proof. by destruct s. Qed.

Lemma prefix_cons (a b : ascii) (s t : string) :
  String.prefix (String a s) (String b t) = Ascii.eqb a b && String.prefix s t.
Proof.
  cbn. destruct (ascii_dec a b) as [->|Hne].
  - by rewrite Ascii.eqb_refl.
  - apply Ascii.eqb_neq in Hne. by rewrite Hne.
Qed.

Lemma prefix_nil (a : ascii) (s : string) : String.prefix (String a s) EmptyString = false.
Proof. reflexivity. Qed.

Lemma prefix_us_trimEnd (s : string) :
  String.prefix "us" (trimEnd s) = String.prefix "us" s.
Proof.
  destruct s as [|a s]; [done|]. rewrite prefix_cons.
  destruct (Ascii.eqb "u" a) eqn:Ha.
  - apply Ascii.eqb_eq in Ha as <-.
    rewrite trimEnd_cons, prefix_cons by done.
    rewrite Ascii.eqb_refl. cbn [andb].
    destruct s as [|b s]; [done|]. rewrite prefix_cons.
    destruct (Ascii.eqb "s" b) eqn:Hb.
    + apply Ascii.eqb_eq in Hb as <-.
      rewrite trimEnd_cons, prefix_cons by done.
      by rewrite Ascii.eqb_refl, !prefix_empty.
    + destruct (trimEnd_head b s) as [->| ->]; [done|].
      by rewrite prefix_cons, Hb.
  - destruct (trimEnd_head a s) as [->| ->]; [done|].
    by rewrite prefix_cons, Ha.
Qed.

(** X15.  The displayed spelling of a chord plays as the stored one:
    [splitChord], hence [chordToMidiNotes], gives the same result on a
    name and on its [formatChordDisplay] form. *)
Theorem X15_display_name_plays_the_same (chord : string) :
  splitChord (formatChordDisplay chord) = splitChord chord ∧
  chordToMidiNotes (formatChordDisplay chord) = chordToMidiNotes chord.
Proof.
  assert (Hsplit : splitChord (formatChordDisplay chord) = splitChord chord).
  { destruct chord as [|c [|s rest]]; try reflexivity.
    cbn [formatChordDisplay].
    destruct (in_range "A" "G" c) eqn:Hc; [|done].
    destruct (Ascii.eqb s "s") eqn:Hs; [|done].
    destruct (String.prefix "us" rest) eqn:Hus; [done|]. cbn [andb negb].
    apply Ascii.eqb_eq in Hs as ->.
    destruct (A_to_G_facts c Hc) as (Hlow & Hsp & Hup & _).
    unfold splitChord. rewrite !(trim_cons c) by done.
    rewrite (trimEnd_cons "#"), (trimEnd_cons "s") by done.
    rewrite Hup, Hc. cbn [negb].
    rewrite (prefix_cons "s" "s"), Ascii.eqb_refl.
    by rewrite prefix_us_trimEnd, Hus. }
  split; [done|]. unfold chordToMidiNotes. by rewrite Hsplit.
Qed.

Lemma chordIntervals_cases (quality : string) :
  chordIntervals quality ∈
    [[0; 4; 7]; [0; 3; 7]; [0; 4; 7; 10]; [0; 4; 7; 11]; [0; 3; 7; 10];
     [0; 3; 6]; [0; 4; 8]; [0; 2; 7]; [0; 5; 7]].
Proof.
  unfold chordIntervals. repeat case_match; rewrite !elem_of_cons;
    repeat (first [left; reflexivity | right]).
Qed.

Lemma ROOT_TO_SEMITONE_entries (root : string) (semitone : Z) :
  ROOT_TO_SEMITONE !! root = Some semitone →
  (root, semitone) ∈
    [ ("C", 0); ("C#", 1); ("Db", 1); ("D", 2); ("D#", 3); ("Eb", 3);
      ("E", 4); ("F", 5); ("F#", 6); ("Gb", 6); ("G", 7); ("G#", 8);
      ("Ab", 8); ("A", 9); ("A#", 10); ("Bb", 10); ("B", 11) ]%string.
Proof. apply elem_of_list_to_map_2. Qed.

Lemma semitone_range (root : string) (semitone : Z) :
  ROOT_TO_SEMITONE !! root = Some semitone → 0 ≤ semitone ≤ 11.
Proof.
  intros H. apply ROOT_TO_SEMITONE_entries in H.
  repeat (apply elem_of_cons in H as [[= _ ->]|H]; [lia|]).
  by apply elem_of_nil in H.
Qed.

(** X16.  [chordToMidiNotes] gives no note exactly when the name has
    no root that [ROOT_TO_SEMITONE] knows; otherwise it gives three or
    four notes, strictly increasing, the lowest being the root at
    [60 + semitone], and all between 60 and 82, so within the MIDI
    range of 0 to 127. *)
Theorem X16_chord_notes_in_range (chord : string) :
  let notes := chordToMidiNotes chord in
  (notes = [] ↔
     ∀ root quality, splitChord chord = Some (root, quality) →
                     ROOT_TO_SEMITONE !! root = None) ∧
  (notes ≠ [] →
     Forall (λ n, 60 ≤ n ≤ 82) notes ∧
     (∃ n0 n1 n2 more,
        notes = n0 :: n1 :: n2 :: more ∧ n0 < n1 < n2 ∧
        (more = [] ∨ ∃ n3, more = [n3] ∧ n2 < n3)) ∧
     ∃ root quality semitone,
       splitChord chord = Some (root, quality) ∧
       ROOT_TO_SEMITONE !! root = Some semitone ∧
       notes !! 0%nat = Some (60 + semitone)).
Proof.
  intros notes. subst notes. unfold chordToMidiNotes.
  destruct (splitChord chord) as [[root quality]|]; [|split; [done|done]].
  destruct (ROOT_TO_SEMITONE !! root) as [semitone|] eqn:Hroot.
  - pose proof (semitone_range root semitone Hroot) as Hst.
    pose proof (chordIntervals_cases quality) as Hq.
    split.
    + split.
      * intros E. exfalso. apply fmap_nil_inv in E. rewrite E in Hq.
        repeat (apply elem_of_cons in Hq as [Hq|Hq]; [discriminate Hq|]).
        by apply elem_of_nil in Hq.
      * intros H. specialize (H root quality eq_refl). congruence.
    + intros _.
      repeat (apply elem_of_cons in Hq as [->|Hq];
              [cbn; unfold BASE_MIDI; split_and!;
               [ repeat constructor; lia
               | do 4 eexists; split_and!;
                 [reflexivity | lia | lia
                 | first [by left | right; eexists; split; [done | lia]]]
               | exists root, quality, semitone; split_and!;
                 [done | done | f_equal; lia]] |]).
      by apply elem_of_nil in Hq.
  - split; [|done]. split; [|done]. intros _ r q [= <- <-]. done.
Qed.

Lemma splitChord_accidental (c a : ascii) (rest : string) :
  in_range "A" "G" c = true →
  (a = "#" ∨ a = "b")%char →
  splitChord (String c (String a rest)) =
    Some (String c (String a EmptyString),
          toLowerCase (trimEnd rest)).
Proof.
  intros Hc Ha. destruct (A_to_G_facts c Hc) as (Hlow & Hsp & Hup & _).
  unfold splitChord. rewrite (trim_cons c) by done.
  rewrite (trimEnd_cons a) by (by destruct Ha as [-> | ->]).
  rewrite Hup, Hc. cbn [negb].
  by destruct Ha as [-> | ->].
Qed.

(** X17.  Enharmonic spellings play the same notes: with any quality
    after it, a sharp root and the flat root of the next letter give
    the same list of notes. *)
Theorem X17_enharmonic_roots_play_the_same (quality : string) :
  chordToMidiNotes (String.append "C#" quality) =
    chordToMidiNotes (String.append "Db" quality) ∧
  chordToMidiNotes (String.append "D#" quality) =
    chordToMidiNotes (String.append "Eb" quality) ∧
  chordToMidiNotes (String.append "F#" quality) =
    chordToMidiNotes (String.append "Gb" quality) ∧
  chordToMidiNotes (String.append "G#" quality) =
    chordToMidiNotes (String.append "Ab" quality) ∧
  chordToMidiNotes (String.append "A#" quality) =
    chordToMidiNotes (String.append "Bb" quality).
Proof.
  assert (Happ : ∀ c a q, String.append (String c (String a EmptyString)) q
                          = String c (String a q)) by reflexivity.
  unfold chordToMidiNotes. rewrite !Happ.
  rewrite !splitChord_accidental
    by (first [reflexivity | by left | by right]).
  split_and!; reflexivity.
Qed.

Lemma to_lower_not_upper (c : ascii) : to_lower c ≠ "M"%char.
Proof.
  destruct c as [[] [] [] [] [] [] [] []]; by vm_compute.
Qed.

(** X18.  The quality that [splitChord] returns is in lower case, so
    the comparison with ['M7'] in [chordIntervals] never holds for a
    name: for every root of the table, a name written with [M7] gets
    the notes of the minor seventh, the notes of the same root with
    [m7], and not those of [maj7]. *)
Theorem X18_M7_is_read_as_minor_seventh :
  (∀ chord root quality,
     splitChord chord = Some (root, quality) → quality ≠ "M7"%string) ∧
  (∀ root semitone,
     ROOT_TO_SEMITONE !! root = Some semitone →
     chordToMidiNotes (String.append root "M7") =
       [60 + semitone; 63 + semitone; 67 + semitone; 70 + semitone] ∧
     chordToMidiNotes (String.append root "M7") =
       chordToMidiNotes (String.append root "m7") ∧
     chordToMidiNotes (String.append root "maj7") =
       [60 + semitone; 64 + semitone; 67 + semitone; 71 + semitone]).
Proof.
  split.
  - intros chord root quality Hsplit. unfold splitChord in Hsplit.
    destruct (trim chord) as [|c rest]; [done|].
    destruct (negb (in_range "A" "G" (to_upper c))); [done|].
    assert (Hlow : ∀ s, toLowerCase s ≠ "M7"%string).
    { intros [|c' s]; cbn; [done|]. intros [= E _].
      by apply to_lower_not_upper in E. }
    assert (Hq : ∃ s, quality = toLowerCase s).
    { destruct rest as [|a rest'];
        [injection Hsplit as _ <-; by exists EmptyString|].
      repeat case_match; simplify_eq; by eexists. }
    destruct Hq as [s ->]. apply Hlow.
  - intros root semitone H. apply ROOT_TO_SEMITONE_entries in H.
    repeat (apply elem_of_cons in H as [[= -> ->]|H];
            [by vm_compute|]).
    by apply elem_of_nil in H.
Qed.

(** * File names *)

Lemma drop_trailing_cons (p : ascii → bool) (c : ascii) (s : string) :
  p c = false → drop_trailing p (String c s) = String c (drop_trailing p s).
Proof. intros Hc. cbn. rewrite Hc. by destruct (drop_trailing p s). Qed.

Lemma drop_trailing_head (p : ascii → bool) (c : ascii) (s : string) :
  drop_trailing p (String c s) = EmptyString ∨
  drop_trailing p (String c s) = String c (drop_trailing p s).
Proof. cbn. destruct (drop_trailing p s); [destruct (p c)|]; auto. Qed.

Section Filename.
Implicit Types (s t : string) (p bad : ascii → bool).

Lemma chars_append s t :
  String.list_ascii_of_string (String.append s t) =
    String.list_ascii_of_string s ++ String.list_ascii_of_string t.
Proof.
  induction s as [|c s IH]; [done|].
  change (String.append (String c s) t) with (String c (String.append s t)).
  cbn. by rewrite IH.
Qed.

Lemma replace_runs_chars (P : ascii → Prop) bad (b : bool) s :
  P "_"%char →
  Forall (λ c, bad c = false → P c) (String.list_ascii_of_string s) →
  Forall P (String.list_ascii_of_string (replace_runs bad b s)).
Proof.
  intros Hu. revert b. induction s as [|c s IH]; intros b Hs; cbn; [done|].
  cbn in Hs. apply list.Forall_cons in Hs as [Hc Hs].
  destruct (bad c) eqn:Hbad.
  - destruct b; [by apply IH|]. cbn. constructor; [done | by apply IH].
  - cbn. constructor; [by apply Hc | by apply IH].
Qed.

Lemma drop_leading_chars (P : ascii → Prop) p s :
  Forall P (String.list_ascii_of_string s) →
  Forall P (String.list_ascii_of_string (drop_leading p s)).
Proof.
  induction s as [|c s IH]; intros Hs; cbn; [done|].
  cbn in Hs. apply list.Forall_cons in Hs as [Hc Hs].
  destruct (p c); [by apply IH|]. cbn. by constructor.
Qed.

Lemma drop_trailing_chars (P : ascii → Prop) p s :
  Forall P (String.list_ascii_of_string s) →
  Forall P (String.list_ascii_of_string (drop_trailing p s)).
Proof.
  induction s as [|c s IH]; intros Hs; [done|].
  cbn in Hs. apply list.Forall_cons in Hs as [Hc Hs].
  destruct (drop_trailing_head p c s) as [->| ->]; [constructor|].
  cbn. constructor; [done | by apply IH].
Qed.

Lemma concat_chars (P : ascii → Prop) (sep : string) (parts : list string) :
  Forall P (String.list_ascii_of_string sep) →
  Forall (λ part, Forall P (String.list_ascii_of_string part)) parts →
  Forall P (String.list_ascii_of_string (String.concat sep parts)).
Proof.
  intros Hsep. induction 1 as [|part parts Hpart Hparts IH]; [constructor|].
  cbn. destruct parts as [|part' parts']; [done|].
  rewrite !chars_append. repeat (apply Forall_app; split); done.
Qed.

Lemma replace_runs_no_double (b : bool) s :
  no_double_underscore (replace_runs is_underscore b s) = true ∧
  (b = true → head_underscore (replace_runs is_underscore b s) = false).
Proof.
  revert b. induction s as [|c s IH]; intros b; cbn; [done|].
  destruct (is_underscore c) eqn:Hc.
  - destruct b; [apply IH|]. destruct (IH true) as [Hnd Hhead].
    cbn. by rewrite Hnd, Hhead.
  - cbn. rewrite Hc. destruct (IH false) as [Hnd _]. by rewrite Hnd.
Qed.

Lemma no_double_tail (c : ascii) s :
  no_double_underscore (String c s) = true → no_double_underscore s = true.
Proof. cbn. by intros [_ H]%andb_true_iff. Qed.

Lemma drop_leading_no_double p s :
  no_double_underscore s = true →
  no_double_underscore (drop_leading p s) = true.
Proof.
  induction s as [|c s IH]; intros Hs; [done|]. cbn [drop_leading].
  destruct (p c); [|done]. by apply IH, (no_double_tail c).
Qed.

Lemma drop_trailing_nonempty_head p s :
  drop_trailing p s ≠ EmptyString →
  head_underscore (drop_trailing p s) = head_underscore s.
Proof.
  destruct s as [|c s]; [done|]. intros Hne.
  by destruct (drop_trailing_head p c s) as [E| ->].
Qed.

Lemma drop_trailing_no_double p s :
  no_double_underscore s = true →
  no_double_underscore (drop_trailing p s) = true.
Proof.
  induction s as [|c s IH]; intros Hs; [done|].
  destruct (drop_trailing_head p c s) as [->| ->]; [done|].
  cbn in Hs. apply andb_true_iff in Hs as [Hc Hs].
  cbn [no_double_underscore]. rewrite (IH Hs), andb_true_r.
  destruct (drop_trailing p s) as [|c' t] eqn:Ht.
  - cbn. by rewrite andb_false_r.
  - rewrite <- Ht, drop_trailing_nonempty_head by (by rewrite Ht). done.
Qed.

Lemma drop_leading_head p s : drop_leading p (drop_leading p s) = drop_leading p s.
Proof.
  induction s as [|c s IH]; [done|]. cbn [drop_leading].
  destruct (p c) eqn:Hc; [done|]. cbn. by rewrite Hc.
Qed.

Lemma drop_trailing_idem p s :
  drop_trailing p (drop_trailing p s) = drop_trailing p s.
Proof.
  induction s as [|c s IH]; [done|]. cbn [drop_trailing].
  destruct (drop_trailing p s) as [|c' t] eqn:Ht.
  - destruct (p c) eqn:Hc; [done|]. cbn. by rewrite Hc.
  - cbn [drop_trailing]. cbn [drop_trailing] in IH. by rewrite IH.
Qed.

(** Dropping at the end keeps a beginning that has nothing to drop. *)
Lemma drop_leading_drop_trailing p s :
  drop_leading p s = s →
  drop_leading p (drop_trailing p s) = drop_trailing p s.
Proof.
  destruct s as [|c s]; [done|]. intros Hs.
  assert (Hc : p c = false).
  { cbn in Hs. destruct (p c); [|done].
    exfalso. apply (f_equal String.length) in Hs. cbn in Hs.
    assert (Hlen : ∀ t, (String.length (drop_leading p t) ≤ String.length t)%nat).
    { clear. induction t as [|a t IH]; cbn; [lia|].
      destruct (p a); cbn; lia. }
    specialize (Hlen s). lia. }
  destruct (drop_trailing_head p c s) as [->| ->]; [done|].
  cbn. by rewrite Hc.
Qed.

End Filename.

(** X19.  The name that [makeMidiFilename] gives always ends in
    [.mid], after a stem that is not empty, holds only letters, digits,
    [#], [-] and [_], neither begins nor ends with an underscore and has
    no two underscores side by side; without chords the name is
    [progression.mid]. *)
Theorem X19_midi_filename_is_safe (chords : list string) :
  makeMidiFilename [] = "progression.mid"%string ∧
  ∃ stem,
    makeMidiFilename chords = String.append stem ".mid" ∧
    stem ≠ EmptyString ∧
    Forall (λ c, filename_char c = true) (String.list_ascii_of_string stem) ∧
    drop_leading is_underscore stem = stem ∧
    drop_trailing is_underscore stem = stem ∧
    no_double_underscore stem = true.
Proof.
  split; [reflexivity|].
  assert (Hdefault :
    "progression"%string ≠ EmptyString ∧
    Forall (λ c, filename_char c = true)
      (String.list_ascii_of_string "progression") ∧
    drop_leading is_underscore "progression" = "progression"%string ∧
    drop_trailing is_underscore "progression" = "progression"%string ∧
    no_double_underscore "progression" = true).
  { split_and!; try done. repeat constructor. }
  unfold makeMidiFilename.
  destruct (length chords =? 0)%nat; [by exists "progression"%string|].
  destruct (String.eqb (safe_name chords) EmptyString) eqn:Hsafe;
    [by exists "progression"%string|].
  exists (safe_name chords). apply String.eqb_neq in Hsafe.
  split_and!; [done | done |..]; unfold safe_name.
  - apply drop_trailing_chars, drop_leading_chars.
    apply replace_runs_chars; [done|].
    eapply list.Forall_impl; [|by intros c Hc _; exact Hc].
    apply concat_chars; [repeat constructor|].
    apply Forall_fmap, list.Forall_forall. intros chord _. cbn.
    apply replace_runs_chars; [done|].
    apply list.Forall_forall. intros c _ Hc.
    apply negb_false_iff in Hc. unfold filename_char. by rewrite Hc.
  - apply drop_leading_drop_trailing, drop_leading_head.
  - apply drop_trailing_idem.
  - apply drop_trailing_no_double, drop_leading_no_double.
    apply replace_runs_no_double.
Qed.

(** * The predictions on screen *)

Section BubblesQc.
Local Open Scope Qc_scope.
Implicit Types (e x : string * Qc) (l : Obj Qc).

Lemma gt0_sub_true (a b : Qc) : gt0 (a - b)%num = true ↔ b < a.
Proof.
  cbn [gt0 nsub Qc_Number]. rewrite Qc_gt0_true.
  split; intros H; qc_lra.
Qed.

Lemma insert_desc_perm e l : insert_desc e l ≡ₚ e :: l.
Proof.
  induction l as [|x l IH]; cbn [insert_desc]; [done|].
  destruct (gt0 (x.2 - e.2)%num); [|done].
  rewrite IH. apply Permutation_swap.
Qed.

Lemma sort_desc_perm l : sort_desc l ≡ₚ l.
Proof.
  induction l as [|e l IH]; [done|]. unfold sort_desc. cbn [foldr].
  fold (sort_desc l). by rewrite insert_desc_perm, IH.
Qed.

Lemma insert_desc_sorted e l :
  StronglySorted (λ a b, b.2 ≤ a.2) l →
  StronglySorted (λ a b, b.2 ≤ a.2) (insert_desc e l).
Proof.
  induction 1 as [|x l Hl IH Hx]; cbn [insert_desc];
    [by repeat constructor|].
  destruct (gt0 (x.2 - e.2)%num) eqn:Hgt.
  - apply gt0_sub_true in Hgt. constructor; [done|].
    rewrite insert_desc_perm. constructor; [by apply Qclt_le_weak | done].
  - assert (Hle : x.2 ≤ e.2).
    { apply Qcnot_lt_le. intros Hlt. apply gt0_sub_true in Hlt. congruence. }
    constructor; [by constructor|]. constructor; [done|].
    eapply list.Forall_impl; [exact Hx|].
    intros y Hy. by apply Qcle_trans with x.2.
Qed.

Lemma sort_desc_sorted l : StronglySorted (λ a b, b.2 ≤ a.2) (sort_desc l).
Proof.
  induction l as [|e l IH]; [constructor|]. by apply insert_desc_sorted.
Qed.

Lemma insert_desc_filter (v : Qc) e l :
  filter (λ x, x.2 = v) (insert_desc e l) = filter (λ x, x.2 = v) (e :: l).
Proof.
  induction l as [|x l IH]; cbn [insert_desc]; [done|].
  destruct (gt0 (x.2 - e.2)%num) eqn:Hgt; [|done].
  apply gt0_sub_true in Hgt.
  rewrite (filter_cons _ x), IH, !(filter_cons _ e), (filter_cons _ x).
  repeat case_decide; try done. exfalso.
  apply Qclt_not_eq in Hgt. congruence.
Qed.

Lemma sort_desc_filter (v : Qc) l :
  filter (λ x, x.2 = v) (sort_desc l) = filter (λ x, x.2 = v) l.
Proof.
  induction l as [|e l IH]; [done|]. unfold sort_desc. cbn [foldr].
  fold (sort_desc l). by rewrite insert_desc_filter, !filter_cons, IH.
Qed.

(** The diameter of a bubble whose probability is positive and at most
    the greatest one. *)
Lemma bubble_bounds (p m : Qc) :
  0 < p → p ≤ m →
  lit 40 1 < lit 40 1 + p / m * lit 70 1 ∧
  lit 40 1 + p / m * lit 70 1 ≤ lit 110 1.
Proof.
  intros Hp Hpm. assert (Hm : 0 < m) by (by apply Qclt_le_trans with p).
  assert (Hm0 : m ≠ 0) by (intros ->; by apply Qclt_not_eq in Hm).
  pose proof (Qcdiv_pos p m Hp Hm) as Hx.
  assert (Hx1 : p / m ≤ 1).
  { apply Qcnot_lt_le. intros Hlt.
    apply (Qcmult_lt_compat_r _ _ m) in Hlt; [|done].
    replace (p / m * m) with p in Hlt by (by field).
    rewrite Qcmult_1_l in Hlt. by apply Qclt_not_le in Hlt. }
  revert Hx Hx1. generalize (p / m). intros x Hx Hx1.
  cbn [lit Qc_Number]. split; qc_lra.
Qed.

Lemma Home_nextChordProbs_positive {R : Realm Qc}
    (models : option (Models Qc))
    (progression : list string) :
  Forall (λ e, 0 < e.2) (Home_nextChordProbs models progression).
Proof.
  unfold Home_nextChordProbs.
  destruct (Home_effect_run models progression) as [->|(m & _ & _ & ->)];
    [constructor|].
  change (computeProbabilitiesT progression m DEFAULT_WEIGHTS None).1
    with (computeProbabilities progression m DEFAULT_WEIGHTS None).
  rewrite computeProbabilities_blend.
  edestruct normalizeProbs_distribution as [->|[H _]]; [|constructor|exact H].
  apply gt0_Forall, blend_positive.
Qed.

End BubblesQc.

(** X20.  The bubbles are the first [maxDisplay] entries of the
    predictions put in descending order of probability: together with
    the entries left out they are a rearrangement of the mapping in
    which no entry is followed by a more probable one, and entries of
    equal probability keep the order they have in the mapping. *)
Theorem X20_bubbles_show_the_most_probable (probabilities : Obj Qc)
    (maxDisplay : nat) :
  let shown := sortedChords probabilities maxDisplay in
  length shown = Nat.min maxDisplay (length probabilities) ∧
  ∃ hidden,
    shown ++ hidden ≡ₚ probabilities ∧
    StronglySorted (λ a b, (b.2 ≤ a.2)%Qc) (shown ++ hidden) ∧
    ∀ v : Qc, filter (λ e, e.2 = v) (shown ++ hidden) =
              filter (λ e, e.2 = v) probabilities.
Proof.
  intros shown. subst shown. unfold sortedChords. split.
  - by rewrite length_take, (Permutation_length (sort_desc_perm _)).
  - exists (drop maxDisplay (sort_desc probabilities)).
    rewrite take_drop. split_and!.
    + apply sort_desc_perm.
    + apply sort_desc_sorted.
    + intros v. apply sort_desc_filter.
Qed.

(** X21.  On the page, whatever the tables and the progression, every
    bubble has a diameter above 40 and at most 110, and the first
    bubble has the diameter 110. *)
Theorem X21_bubble_diameters {R : Realm Qc} (models : option (Models Qc))
    (progression : list string) :
  let shown := sortedChords (Home_nextChordProbs models progression) 16 in
  Forall (λ e, (lit 40 1 < bubbleSize shown e.2)%Qc ∧
               (bubbleSize shown e.2 ≤ lit 110 1)%Qc) shown ∧
  ∀ e, head shown = Some e → bubbleSize shown e.2 = lit 110 1.
Proof.
  intros shown.
  pose proof (Home_nextChordProbs_positive models progression) as Hpos.
  rewrite <- (sort_desc_perm (Home_nextChordProbs models progression)) in Hpos.
  pose proof (sort_desc_sorted (Home_nextChordProbs models progression)) as Hs.
  rewrite <- (take_drop 16 (sort_desc _)) in Hpos, Hs.
  fold (sortedChords (Home_nextChordProbs models progression) 16) in Hpos, Hs.
  fold shown in Hpos, Hs. clearbody shown.
  apply Forall_app in Hpos as [Hpos _].
  destruct shown as [|e0 rest]; [done|].
  apply StronglySorted_inv in Hs as [_ Hs]. apply Forall_app in Hs as [Hs _].
  assert (Hmax : maxProb (e0 :: rest) = e0.2).
  { cbn [maxProb]. apply list.Forall_cons in Hpos as [H0 _].
    assert (Ht : truthy e0.2 = true); [|by rewrite Ht].
    cbn [truthy Qc_Number]. apply negb_true_iff, not_true_iff_false.
    intros Heq%Qeq_bool_iff. apply (Qc_is_canon e0.2 0%Qc) in Heq.
    rewrite Heq in H0. by apply Qclt_not_eq in H0. }
  assert (Hle : Forall (λ e, (e.2 ≤ e0.2)%Qc) (e0 :: rest)).
  { constructor; [apply Qcle_refl | done]. }
  split.
  - apply list.Forall_forall. intros e He. unfold bubbleSize. rewrite Hmax.
    cbn [nadd nmul ndiv Qc_Number].
    rewrite list.Forall_forall in Hpos, Hle.
    apply bubble_bounds; [by apply Hpos | by apply Hle].
  - intros e [= <-]. unfold bubbleSize. rewrite Hmax.
    apply list.Forall_cons in Hpos as [H0 _].
    cbn [nadd nmul ndiv lit Qc_Number].
    replace (e0.2 / e0.2)%Qc with 1%Qc.
    + apply Qc_is_canon. reflexivity.
    + field. intros E. rewrite E in H0. by apply Qclt_not_eq in H0.
Qed.

(** * Loading the tables *)

Lemma loadModels_uncached {num : Type}
    (fetch : string → FetchOutcome (NGramModel num)) :
  let run := loadModels fetch None in
  let u1 := data_url "unigram.json" in
  let u2 := data_url "bigram.json" in
  let u3 := data_url "trigram.json" in
  (∀ models, outcome run = inl models →
     requests run = [u1; u2; u3] ∧
     progress run =
       [ {| loaded := 0; total := 3; currentFile := "unigram.json" |};
         {| loaded := 1; total := 3; currentFile := "bigram.json" |};
         {| loaded := 2; total := 3; currentFile := "trigram.json" |};
         {| loaded := 3; total := 3; currentFile := "Complete" |} ] ∧
     fetch u1 = Fetched (unigram models) ∧
     fetch u2 = Fetched (bigram models) ∧
     fetch u3 = Fetched (trigram models)) ∧
  (∀ uni bi tri,
     fetch u1 = Fetched uni → fetch u2 = Fetched bi →
     fetch u3 = Fetched tri →
     outcome run = inl {| unigram := uni; bigram := bi; trigram := tri |}).
Proof.
  intros run u1 u2 u3. subst run. unfold loadModels. cbv zeta.
  fold u1 u2 u3.
  destruct (fetch u1) as [uni| |] eqn:H1;
    [|split; [intros ? [=] | intros ??? [=]]..].
  destruct (fetch u2) as [bi| |] eqn:H2;
    [|split; [intros ? [=] | intros ??? _ [=]]..].
  destruct (fetch u3) as [tri| |] eqn:H3;
    [|split; [intros ? [=] | intros ??? _ _ [=]]..].
  split.
  - intros models [= <-]. by split_and!.
  - by intros ??? [= <-] [= <-] [= <-].
Qed.

(** X22.  A call of [loadModels] with the tables in the cache returns
    them with no request and no report.  Without them, the run
    requests the three files in their order and stops at the first
    that fails: every request before the last was answered.  It
    returns tables exactly when the three files were fetched, and
    then it has requested the three files, reported four times, and
    the unigram, bigram and trigram tables returned are the bodies of
    [unigram.json], [bigram.json] and [trigram.json].  A run that
    returns the tables leaves them in the cache, and a later call
    returns them with no request and no report; a run that fails
    throws the one message whatever the file and the failure, after a
    last request that was not answered, and leaves the cache empty. *)
Theorem X22_loadModels_runs {num : Type}
    (fetch : string → FetchOutcome (NGramModel num))
    (cache : option (Models num)) :
  let run := loadModels fetch cache in
  let u1 := data_url "unigram.json" in
  let u2 := data_url "bigram.json" in
  let u3 := data_url "trigram.json" in
  (∀ models, cache = Some models →
     outcome run = inl models ∧ requests run = [] ∧ progress run = []) ∧
  (cache = None →
     (∀ models, outcome run = inl models →
        requests run = [u1; u2; u3] ∧
        progress run =
          [ {| loaded := 0; total := 3; currentFile := "unigram.json" |};
            {| loaded := 1; total := 3; currentFile := "bigram.json" |};
            {| loaded := 2; total := 3; currentFile := "trigram.json" |};
            {| loaded := 3; total := 3; currentFile := "Complete" |} ] ∧
        fetch u1 = Fetched (unigram models) ∧
        fetch u2 = Fetched (bigram models) ∧
        fetch u3 = Fetched (trigram models)) ∧
     (∀ uni bi tri,
        fetch u1 = Fetched uni → fetch u2 = Fetched bi →
        fetch u3 = Fetched tri →
        outcome run =
          inl {| unigram := uni; bigram := bi; trigram := tri |})) ∧
  requests run `prefix_of` [u1; u2; u3] ∧
  (∀ i url, requests run !! i = Some url →
            (S i < length (requests run))%nat →
            ∃ json, fetch url = Fetched json) ∧
  (∀ models, outcome run = inl models →
     cachedModels run = Some models ∧
     ∀ fetch', loadModels fetch' (cachedModels run) =
                 {| outcome := inl models; cachedModels := Some models;
                    progress := []; requests := [] |}) ∧
  (∀ message, outcome run = inr message →
     message = load_error ∧ cache = None ∧ cachedModels run = None ∧
     length (progress run) = length (requests run) ∧
     ∃ url, list.last (requests run) = Some url ∧
            ∀ json, fetch url ≠ Fetched json).
Proof.
  intros run u1 u2 u3. split; [|split].
  { intros models ->. by split_and!. }
  { intros ->. apply loadModels_uncached. }
  subst run u1 u2 u3. unfold loadModels.
  destruct cache as [models|].
  { cbn. split_and!.
    - by eexists.
    - intros i url [=].
    - by intros ? [= <-].
    - intros ? [=]. }
  cbv zeta.
  destruct (fetch (data_url "unigram.json")) as [uni| |] eqn:H1.
  2,3: cbn; split_and!;
    [by eexists [_; _] | intros [|i] url [=] Hi; cbn in Hi; lia | done
    | intros ? [= <-]; split_and!; try done;
      eexists; split; [done|]; intros json; by rewrite H1 ].
  destruct (fetch (data_url "bigram.json")) as [bi| |] eqn:H2.
  2,3: cbn; split_and!;
    [by eexists [_] | intros [|[|i]] url [=] Hi; cbn in Hi; [subst; by eexists | lia] | done
    | intros ? [= <-]; split_and!; try done;
      eexists; split; [done|]; intros json; by rewrite H2 ].
  destruct (fetch (data_url "trigram.json")) as [tri| |] eqn:H3.
  2,3: cbn; split_and!;
    [done | intros [|[|[|i]]] url [=] Hi; cbn in Hi; [subst; by eexists.. | lia] | done
    | intros ? [= <-]; split_and!; try done;
      eexists; split; [done|]; intros json; by rewrite H3 ].
  cbn. split_and!.
  - done.
  - intros [|[|[|i]]] url [=] Hi; cbn in Hi; [subst; by eexists..|lia].
  - by intros ? [= <-].
  - intros ? [=].
Qed.

(** * Exported cells *)

(** X23.  A cell that [sanitizeCsvCell] gives never begins with [=],
    [+], [-] or [@]; the function changes a text only by putting a
    quote before it, and it leaves its own results as they are. *)
Theorem X23_csv_cell_is_no_formula (text : string) :
  (∀ c rest, sanitizeCsvCell text = String c rest → formula_char c = false) ∧
  (sanitizeCsvCell text = text ∨ sanitizeCsvCell text = String "'" text) ∧
  sanitizeCsvCell (sanitizeCsvCell text) = sanitizeCsvCell text.
Proof.
  destruct text as [|a text]; [by split_and!; [|left|]|].
  unfold sanitizeCsvCell. destruct (formula_char a) eqn:Ha.
  - split_and!; [by intros c rest [= <- _] | by right | done].
  - split_and!; [intros c rest [= <- _]; done | by left | by rewrite Ha].
Qed.
